(** * Edge cache, rate limiter and performance monitor

    A shallow embedding of [lib/database.ts], [lib/cache.ts] and the
    [RateLimiter] / [PerformanceMonitor] classes of [lib/utils.ts], and the
    properties of the specification that concern them.

    Conventions.
    - [Date.now()] is a reading of a millisecond clock; times are [Z].
    - A JavaScript [number] that the code only ever uses as an integer
      (timestamps, TTLs in seconds, response times computed as a difference
      of two [Date.now()] readings, array lengths) is a [Z].  The three
      places where the code leaves the integers ([length * 0.95],
      [length * 0.99], the average and the hit rate) are computed with the
      binary64 primitives of Rocq, which are the arithmetic JavaScript
      uses.
    - A [Map] is a [gmap]; an array is a [list]. *)

From Stdlib Require Import ZArith Ascii String PrimFloat SpecFloat FloatOps Uint63.
From stdpp Require Import gmap strings list sorting pretty.

#[local] Open Scope Z_scope.

(* ===================================================================== *)
(** * JavaScript values and built-ins used by the sources                 *)
(* ===================================================================== *)

Module Js.

(** JSON-serialisable values, the [any] stored by the cache. *)
#[local] Set Warnings "-register-all".
Inductive value : Type :=
| Null
| Bool (b : bool)
| Num (n : Z)
| Str (s : string)
| Arr (items : list value)
| Obj (fields : list (string * value)).

(** [ToBoolean]: what [if (v)] and [a && b] test. *)
Definition truthy (v : value) : bool :=
  match v with
  | Null => false
  | Bool b => b
  | Num n => negb (n =? 0)
  | Str s => negb (String.eqb s "")
  | Arr _ => true
  | Obj _ => true
  end.

(** [ToBoolean] of a number. *)
Definition truthy_num (n : Z) : bool := negb (n =? 0).

(** [arr.slice(start)]: a negative [start] counts from the end, and is
    clamped to the whole array; [-0] is [0]. *)
Definition slice {A : Type} (start : Z) (arr : list A) : list A :=
  let len := Z.of_nat (length arr) in
  let k := if start <? 0 then Z.max (len + start) 0 else Z.min start len in
  drop (Z.to_nat k) arr.

(** [arr.sort((a, b) => a - b)] on numbers: the ascending arrangement. *)
Definition sort_ascending (arr : list Z) : list Z := merge_sort Z.le arr.

(** [arr[i]] for an index that is a number: [undefined] (here [None])
    when [i] is not an index of the array. *)
Definition index {A : Type} (arr : list A) (i : option Z) : option A :=
  match i with
  | Some z => if z <? 0 then None else arr !! Z.to_nat z
  | None => None
  end.

(** [x || 0] for a number or [undefined]. *)
Definition or_zero (x : option Z) : Z :=
  match x with
  | Some v => if truthy_num v then v else 0
  | None => 0
  end.

(** An integer as a binary64 number: the integer itself up to 2^53 in
    absolute value, and beyond that the nearest double (ties to even),
    as JavaScript has it. *)
Definition number (z : Z) : float :=
  SF2Prim (binary_normalize prec emax z 0 false).

(** [Math.floor]; [None] stands for the results that are not integers
    ([NaN], the infinities), which index nothing. *)
Definition Math_floor (x : float) : option Z :=
  match Prim2SF x with
  | S754_zero _ => Some 0
  | S754_finite s m e =>
      let v := if s then Z.neg m else Z.pos m in
      Some (if 0 <=? e then v * 2 ^ e else Z.shiftr v (- e))
  | S754_infinity _ => None
  | S754_nan => None
  end.

(** The literals [0.95] and [0.99] as JavaScript reads them: the nearest
    binary64 numbers. *)
Definition lit_0_95 : float := 0x1.e666666666666p-1%float.
Definition lit_0_99 : float := 0x1.fae147ae147aep-1%float.

End Js.

(* ===================================================================== *)
(** * [RateLimiter] (lib/utils.ts)                                        *)
(* ===================================================================== *)

Module RateLimiter.

Record t : Type := mk {
  requests : gmap string (list Z);
  maxRequests : Z;
  windowMs : Z
}.

(** [new RateLimiter(maxRequests, windowMs)] *)
Definition new (maxRequests windowMs : Z) : t :=
  {| requests := ∅; maxRequests := maxRequests; windowMs := windowMs |}.

(** [requestTimes.filter(time => now - time < this.windowMs)] *)
Definition validRequests (rl : t) (identifier : string) (now : Z) : list Z :=
  let requestTimes := default [] (requests rl !! identifier) in
  filter (λ time, now - time < windowMs rl) requestTimes.

(** [isAllowed(identifier)], where [now] is what [Date.now()] returns. *)
Definition isAllowed (identifier : string) (now : Z) (rl : t) : bool * t :=
  let valid := validRequests rl identifier now in
  if bool_decide (Z.of_nat (length valid) >= maxRequests rl) then (false, rl)
  else
    (true,
     {| requests := <[identifier := valid ++ [now]]> (requests rl);
        maxRequests := maxRequests rl;
        windowMs := windowMs rl |}).

Definition getRemainingRequests (identifier : string) (now : Z) (rl : t) : Z :=
  Z.max 0 (maxRequests rl - Z.of_nat (length (validRequests rl identifier now))).

Definition reset (identifier : string) (rl : t) : t :=
  {| requests := delete identifier (requests rl);
     maxRequests := maxRequests rl;
     windowMs := windowMs rl |}.

(** Successive calls of [isAllowed] for one identifier, at the given
    clock readings. *)
Fixpoint calls (identifier : string) (times : list Z) (rl : t) : list bool * t :=
  match times with
  | [] => ([], rl)
  | now :: rest =>
      let '(b, rl1) := isAllowed identifier now rl in
      let '(bs, rl2) := calls identifier rest rl1 in
      (b :: bs, rl2)
  end.

(** The pruning as the specification words it: the timestamps within the
    closed interval [[now - windowMs, now]]. *)
Definition prune_spec (rl : t) (identifier : string) (now : Z) : list Z :=
  filter (λ time, now - windowMs rl <= time <= now)
         (default [] (requests rl !! identifier)).

(** The admission decision of the specification's wording. *)
Definition isAllowed_spec (identifier : string) (now : Z) (rl : t) : bool :=
  bool_decide (Z.of_nat (length (prune_spec rl identifier now)) < maxRequests rl).

End RateLimiter.

(* ===================================================================== *)
(** * [PerformanceMonitor] (lib/utils.ts)                                 *)
(* ===================================================================== *)

Module PerformanceMonitor.

Inductive CacheStatus : Type := hit | miss | stale.

Definition is_hit (s : CacheStatus) : bool :=
  match s with hit => true | _ => false end.

Record PerformanceMetrics : Type := mkMetric {
  responseTime : Z;
  cacheStatus : CacheStatus;
  region : string;
  timestamp : string
}.

Record Stats : Type := mkStats {
  count : Z;
  averageResponseTime : float;
  cacheHitRate : float;
  p95ResponseTime : Z;
  p99ResponseTime : Z
}.

(** The monitor's only mutable field is the [metrics] array. *)
Definition t : Type := list PerformanceMetrics.

Definition maxMetrics : Z := 100.

Definition empty : t := [].

Definition addMetric (metric : PerformanceMetrics) (metrics : t) : t :=
  let pushed := metrics ++ [metric] in
  if Z.of_nat (length pushed) >? maxMetrics
  then Js.slice (- maxMetrics) pushed
  else pushed.

Definition responseTimes (metrics : t) : list Z :=
  Js.sort_ascending (map responseTime metrics).

Definition cacheHits (metrics : t) : Z :=
  Z.of_nat (length (filter (λ m, is_hit (cacheStatus m) = true) metrics)).

Definition p95Index (metrics : t) : option Z :=
  Js.Math_floor
    (PrimFloat.mul (Js.number (Z.of_nat (length (responseTimes metrics)))) Js.lit_0_95).

Definition p99Index (metrics : t) : option Z :=
  Js.Math_floor
    (PrimFloat.mul (Js.number (Z.of_nat (length (responseTimes metrics)))) Js.lit_0_99).

Definition getStats (metrics : t) : Stats :=
  if Z.of_nat (length metrics) =? 0 then
    {| count := 0;
       averageResponseTime := 0%float;
       cacheHitRate := 0%float;
       p95ResponseTime := 0;
       p99ResponseTime := 0 |}
  else
    let rts := responseTimes metrics in
    {| count := Z.of_nat (length metrics);
       averageResponseTime :=
         PrimFloat.div
           (fold_left (λ a b, PrimFloat.add a (Js.number b)) rts 0%float)
           (Js.number (Z.of_nat (length rts)));
       cacheHitRate :=
         PrimFloat.mul
           (PrimFloat.div (Js.number (cacheHits metrics))
                          (Js.number (Z.of_nat (length metrics))))
           (Js.number 100);
       p95ResponseTime := Js.or_zero (Js.index rts (p95Index metrics));
       p99ResponseTime := Js.or_zero (Js.index rts (p99Index metrics)) |}.

Definition getRecentMetrics (limit : Z) (metrics : t) : t :=
  Js.slice (- limit) metrics.

Definition clear (metrics : t) : t := [].

(** Recording a sequence of samples, first to last. *)
Definition record_all (samples : list PerformanceMetrics) (metrics : t) : t :=
  fold_left (λ ms m, addMetric m ms) samples metrics.

(** The monitors a program can hold: built from the empty one by
    [addMetric] and [clear]. *)
Inductive reachable : t → Prop :=
| reach_empty : reachable empty
| reach_add m ms : reachable ms → reachable (addMetric m ms)
| reach_clear ms : reachable ms → reachable (clear ms).

(** A sample of the specification's example, with response time [rt]. *)
Definition sample (rt : Z) : PerformanceMetrics :=
  {| responseTime := rt; cacheStatus := miss; region := "iad1";
     timestamp := "2024-01-01T00:00:00.000Z" |}.

(** [10, 20, ..., 1000] *)
Definition ten_to_thousand : list Z :=
  map (λ i, 10 * Z.of_nat i) (seq 1 100).

End PerformanceMonitor.

(* ===================================================================== *)
(** * The world the cache runs in                                         *)
(* ===================================================================== *)

(** [JSONData] of lib/database.ts.  [timestamp] and [expires] are ISO
    renderings of instants in the source and are kept as the instants;
    [metadata.size] and [metadata.format] are written once and never read
    by the cache, and are left out. *)
Module JSONData.
Record t : Type := mk {
  id : string;
  data : Js.value;
  timestamp : Z;
  version : Z;
  expires : option Z
}.
End JSONData.

(** The value type of [EdgeCache.memoryCache]. *)
Module MemoryEntry.
Record t : Type := mk {
  data : Js.value;
  expires : Z
}.
End MemoryEntry.

Module Runtime.

(** What the durable store holds under a key: the value, and the instant
    at which the store drops it ([None]: never). *)
Record KvItem : Type := mkItem {
  payload : JSONData.t;
  deadline : option Z
}.

(** What happens to one call of the durable store's client: how long it
    takes, and whether it ends in an error (a timeout, a lost
    connection). *)
Record Step : Type := mkStep {
  latency : N;
  fails : bool
}.

(** Observable actions, in the order they happen: the calls that reach
    the durable store, and the lines written to the console. *)
Inductive Event : Type :=
| KvGet (key : string)
| KvSet (key : string)
| KvSetex (key : string) (seconds : Z)
| KvDel (key : string)
| KvKeys (pattern : string)
| Console (line : string).

Inductive Error : Type :=
| StoreError (call : Event)
| FetcherError (message : string)
| RangeError (message : string).

Record World : Type := mkWorld {
  memoryCache : gmap string MemoryEntry.t;   (* the EdgeCache instance *)
  kv : gmap string KvItem;                   (* the durable store *)
  clock : Z;                                 (* Date.now() *)
  schedule : list Step;                      (* fate of the next store calls *)
  trace : list Event
}.

Inductive result (A : Type) : Type :=
| Ok (a : A)
| Throw (e : Error).
Arguments Ok {A} a.
Arguments Throw {A} e.

(** An [async] computation: it runs in a world, and returns or throws. *)
Definition M (A : Type) : Type := World → result A * World.

#[global] Instance M_ret : MRet M := λ A a w, (Ok a, w).

#[global] Instance M_bind : MBind M := λ A B f m w,
  match m w with
  | (Ok a, w1) => f a w1
  | (Throw e, w1) => (Throw e, w1)
  end.

(** [try { body } catch (error) { handler }] *)
Definition try_catch {A : Type} (body : M A) (handler : Error → M A) : M A :=
  λ w,
    match body w with
    | (Ok a, w1) => (Ok a, w1)
    | (Throw e, w1) => handler e w1
    end.

(** [for (const x of xs) { body }] *)
Fixpoint for_of {A : Type} (xs : list A) (body : A → M unit) : M unit :=
  match xs with
  | [] => mret tt
  | x :: rest => body x;; for_of rest body
  end.

Definition Date_now : M Z := λ w, (Ok (clock w), w).

(** The instants a [Date] can hold: 8.64e15 ms either side of the epoch. *)
Definition MAX_DATE : Z := 8640000000000000.

(** [new Date(ms).toISOString()]: the instant, or a [RangeError] when [ms]
    is outside the range of [Date]. *)
Definition Date_toISOString (ms : Z) : M Z :=
  λ w,
    if bool_decide (- MAX_DATE <= ms <= MAX_DATE) then (Ok ms, w)
    else (Throw (RangeError "Invalid time value"), w).

Definition emit (ev : Event) (w : World) : World :=
  {| memoryCache := memoryCache w; kv := kv w; clock := clock w;
     schedule := schedule w; trace := trace w ++ [ev] |}.

(** [console.log], [console.warn], [console.error] *)
Definition console (line : string) : M unit := λ w, (Ok tt, emit (Console line) w).

(** Time passing between two calls of the cache. *)
Definition elapse (ms : Z) (w : World) : World :=
  {| memoryCache := memoryCache w; kv := kv w; clock := clock w + ms;
     schedule := schedule w; trace := trace w |}.

Definition memory_get (cacheKey : string) : M (option MemoryEntry.t) :=
  λ w, (Ok (memoryCache w !! cacheKey), w).

Definition memory_update
    (f : gmap string MemoryEntry.t → gmap string MemoryEntry.t) : M unit :=
  λ w, (Ok tt,
        {| memoryCache := f (memoryCache w); kv := kv w; clock := clock w;
           schedule := schedule w; trace := trace w |}).

Definition memory_set (cacheKey : string) (e : MemoryEntry.t) : M unit :=
  memory_update (insert cacheKey e).

Definition memory_delete (cacheKey : string) : M unit :=
  memory_update (delete cacheKey).

Definition memory_clear : M unit := memory_update (λ _, ∅).

(** ** The durable store's client ([@vercel/kv]) *)

Definition next_step (w : World) : Step * list Step :=
  match schedule w with
  | [] => ({| latency := 0; fails := false |}, [])
  | s :: rest => (s, rest)
  end.

(** Modelled from the spec: the client of the durable store is an
    external collaborator ([@vercel/kv]), consumed through the contract
    of the specification's section 4.4.  One call takes the time and
    meets the fate its [Step] says; a call that fails leaves the store
    as it was. *)
Definition kv_call {A : Type} (ev : Event)
    (run : Z → gmap string KvItem → A * gmap string KvItem) : M A :=
  λ w,
    let '(step, rest) := next_step w in
    let now := clock w + Z.of_N (latency step) in
    if fails step then
      (Throw (StoreError ev),
       {| memoryCache := memoryCache w; kv := kv w; clock := now;
          schedule := rest; trace := trace w ++ [ev] |})
    else
      let '(a, kv1) := run now (kv w) in
      (Ok a,
       {| memoryCache := memoryCache w; kv := kv1; clock := now;
          schedule := rest; trace := trace w ++ [ev] |}).

(** An item is served until its deadline ("TTL honored server-side"). *)
Definition live (now : Z) (it : KvItem) : bool :=
  match deadline it with
  | Some d => bool_decide (now < d)
  | None => true
  end.

Definition visible (now : Z) (store : gmap string KvItem) (key : string)
    : option JSONData.t :=
  match store !! key with
  | Some it => if live now it then Some (payload it) else None
  | None => None
  end.

(** Modelled from the spec: [listKeys] supports the single trailing
    wildcard, [prefix*] meaning every key that starts with [prefix]; any
    other character stands for itself. *)
Fixpoint glob_match (pattern key : string) : bool :=
  match pattern with
  | EmptyString => match key with EmptyString => true | String _ _ => false end
  | String c EmptyString =>
      if Ascii.eqb c "*"%char then true
      else match key with
           | String d EmptyString => Ascii.eqb c d
           | _ => false
           end
  | String c rest =>
      match key with
      | String d key' => if Ascii.eqb c d then glob_match rest key' else false
      | EmptyString => false
      end
  end.

(** Modelled from the spec: the operations of the contract.  [get] gives
    the value or nothing; [set] without a TTL keeps the value until it is
    deleted, [setex] until its TTL has run out; [del] of an absent key is
    not an error; [keys] lists the keys that match and are still served. *)
Definition kv_get (key : string) : M (option JSONData.t) :=
  kv_call (KvGet key) (λ now store, (visible now store key, store)).

Definition kv_set (key : string) (value : JSONData.t) : M unit :=
  kv_call (KvSet key)
    (λ now store, (tt, <[key := {| payload := value; deadline := None |}]> store)).

Definition kv_setex (key : string) (seconds : Z) (value : JSONData.t) : M unit :=
  kv_call (KvSetex key seconds)
    (λ now store,
       (tt, <[key := {| payload := value;
                        deadline := Some (now + seconds * 1000) |}]> store)).

Definition kv_del (key : string) : M unit :=
  kv_call (KvDel key) (λ now store, (tt, delete key store)).

Definition kv_keys (pattern : string) : M (list string) :=
  kv_call (KvKeys pattern)
    (λ now store,
       (filter (λ key, glob_match pattern key = true
                       ∧ is_Some (visible now store key))
               (elements (dom store)),
        store)).

End Runtime.

(* ===================================================================== *)
(** * [db] (lib/database.ts)                                              *)
(* ===================================================================== *)

Module Database.
Import Runtime.

Definition set (key : string) (data : Js.value) (ttlSeconds : option Z) : M unit :=
  now ← Date_now;
  let jsonData (expires : option Z) :=
    {| JSONData.id := key;
       JSONData.data := data;
       JSONData.timestamp := now;
       JSONData.version := 1;
       JSONData.expires := expires |} in
  match ttlSeconds with
  | Some seconds =>
      if Js.truthy_num seconds then
        expires ← Date_toISOString (now + seconds * 1000);
        kv_setex key seconds (jsonData (Some expires))
      else kv_set key (jsonData None)
  | None => kv_set key (jsonData None)
  end.

Definition get (key : string) : M (option JSONData.t) := kv_get key.

Definition delete (key : string) : M unit := kv_del key.

Definition list (pattern : string) : M (list string) := kv_keys pattern.

End Database.

(* ===================================================================== *)
(** * [EdgeCache] (lib/cache.ts)                                          *)
(* ===================================================================== *)

Module EdgeCache.
Import Runtime.

Definition CACHE_PREFIX : string := "cache:".
Definition DEFAULT_TTL : Z := 60.

(** A fetcher is any asynchronous computation of the caller's. *)
Definition Fetcher : Type := M Js.value.

Definition set (key : string) (data : Js.value) (ttl : Z) : M unit :=
  let cacheKey := CACHE_PREFIX +:+ key in
  try_catch
    (Database.set cacheKey data (Some ttl);;
     now ← Date_now;
     memory_set cacheKey
       {| MemoryEntry.data := data;
          MemoryEntry.expires := now + Z.min (ttl * 1000) 10000 |})
    (λ _, console ("[CACHE] Set error for " +:+ key +:+ ":")).

(** Step 2 of [get]: the [try] block around the durable store.  [Some v]
    is the [return] inside the block; [None] falls through to step 3. *)
Definition check_kv (key : string) : M (option Js.value) :=
  let cacheKey := CACHE_PREFIX +:+ key in
  try_catch
    (kvCached ← Database.get cacheKey;
     match kvCached with
     | Some jd =>
         if Js.truthy (JSONData.data jd) then
           console ("[CACHE] KV hit: " +:+ key);;
           now ← Date_now;
           memory_set cacheKey
             {| MemoryEntry.data := JSONData.data jd;
                MemoryEntry.expires := now + 10000 |};;
           mret (Some (JSONData.data jd))
         else mret None
     | None => mret None
     end)
    (λ _, console ("[CACHE] KV error for " +:+ key +:+ ":");; mret None).

(** Step 3 of [get]. *)
Definition fetch_fresh (key : string) (fetcher : option Fetcher) (ttl : Z)
    : M Js.value :=
  match fetcher with
  | Some f =>
      console ("[CACHE] Miss: " +:+ key +:+ ", fetching fresh");;
      try_catch
        (freshData ← f;
         set key freshData ttl;;
         mret freshData)
        (λ _, console ("[CACHE] Fetcher error for " +:+ key +:+ ":");;
              mret Js.Null)
  | None => mret Js.Null
  end.

(** Steps 2 and 3 of [get]: what it does once the local tier has not
    answered. *)
Definition after_memory (key : string) (fetcher : option Fetcher) (ttl : Z)
    : M Js.value :=
  kvHit ← check_kv key;
  match kvHit with
  | Some v => mret v
  | None => fetch_fresh key fetcher ttl
  end.

Definition get (key : string) (fetcher : option Fetcher) (ttl : Z) : M Js.value :=
  let cacheKey := CACHE_PREFIX +:+ key in
  memoryCached ← memory_get cacheKey;
  now ← Date_now;
  match memoryCached with
  | Some e =>
      if bool_decide (MemoryEntry.expires e > now) then
        console ("[CACHE] Memory hit: " +:+ key);;
        mret (MemoryEntry.data e)
      else after_memory key fetcher ttl
  | None => after_memory key fetcher ttl
  end.

Definition invalidate (key : string) : M unit :=
  let cacheKey := CACHE_PREFIX +:+ key in
  try_catch
    (Database.delete cacheKey;;
     memory_delete cacheKey)
    (λ _, console ("[CACHE] Invalidate error for " +:+ key +:+ ":")).

Definition invalidatePattern (pattern : string) : M unit :=
  try_catch
    (keys ← Database.list (CACHE_PREFIX +:+ pattern);
     for_of keys (λ key, Database.delete key;; memory_delete key))
    (λ _, console ("[CACHE] Invalidate pattern error for " +:+ pattern +:+ ":")).

(** The [try] block of [clear]. *)
Definition clear_try : M unit :=
  keys ← Database.list (CACHE_PREFIX +:+ "*");
  for_of keys (λ key, Database.delete key);;
  memory_clear.

Definition clear : M unit :=
  try_catch clear_try (λ _, console "[CACHE] Clear error:").

Definition cleanupMemory : M unit :=
  now ← Date_now;
  memory_update (filter (λ kv, ¬ (MemoryEntry.expires kv.2 <= now))).

(** The local tier does not answer for [key]: it has no entry, or an
    entry whose [expires] is not in the future. *)
Definition memory_misses (w : World) (key : string) : Prop :=
  ∀ e, memoryCache w !! (CACHE_PREFIX +:+ key) = Some e →
       MemoryEntry.expires e <= clock w.

(** The world in which the local tier has no entry under [cacheKey]. *)
Definition forget (cacheKey : string) (w : World) : World :=
  {| memoryCache := base.delete cacheKey (memoryCache w); kv := kv w;
     clock := clock w; schedule := schedule w; trace := trace w |}.

End EdgeCache.

(* ===================================================================== *)
(** * Worlds and callers used as concrete inputs                          *)
(* ===================================================================== *)

Module Examples.
Import Runtime.

(** A process that has cached nothing, over an empty store that is not
    going to fail. *)
Definition idle : World :=
  {| memoryCache := ∅; kv := ∅; clock := 1700000000000;
     schedule := []; trace := [] |}.

(** [set("k", v, 60)] was done 20 seconds ago: the local entry has
    expired, the durable one has not. *)
Definition stale_local (v : Js.value) : World :=
  elapse 20000 (EdgeCache.set "k" v 60 idle).2.

(** The same world, in which the next call of the store fails after
    3 ms. *)
Definition failing_next (w : World) : World :=
  {| memoryCache := memoryCache w; kv := kv w; clock := clock w;
     schedule := [ {| latency := 3; fails := true |} ]; trace := trace w |}.

(** [async () => "fresh"] *)
Definition fresh_fetcher : EdgeCache.Fetcher := mret (Js.Str "fresh").

End Examples.

(* ===================================================================== *)
(** * The limiters a program can hold                                     *)
(* ===================================================================== *)

Module RateLimiterRuns.
Import RateLimiter.

(** The limiters built by [new RateLimiter(maxRequests, windowMs)] and any
    calls of [isAllowed] and [reset] ([getRemainingRequests] changes
    nothing). *)
Inductive reachable (maxRequests windowMs : Z) : RateLimiter.t → Prop :=
| reach_new : reachable maxRequests windowMs (new maxRequests windowMs)
| reach_isAllowed identifier now rl :
    reachable maxRequests windowMs rl →
    reachable maxRequests windowMs (isAllowed identifier now rl).2
| reach_reset identifier rl :
    reachable maxRequests windowMs rl →
    reachable maxRequests windowMs (reset identifier rl).

End RateLimiterRuns.

(* ===================================================================== *)
(** * The helpers of lib/utils.ts                                         *)
(* ===================================================================== *)

(** [ToBoolean] of the values of a type: what [x && ...] tests. *)
Class ToBoolean (T : Type) : Type := to_boolean : T → bool.

#[global] Instance value_ToBoolean : ToBoolean Js.value := Js.truthy.

Module KeyContext.
Record t : Type := mk {
  region : option string;
  userId : option string
}.
End KeyContext.

(** The [options] argument of [createAPIResponse]; [None] is a field that
    is not given. *)
Module ResponseOptions.
Record t : Type := mk {
  success : option bool;
  error : option string;
  message : option string;
  cacheStatus : option PerformanceMonitor.CacheStatus;
  region : option string;
  responseTime : option Z
}.

Definition none : t :=
  {| success := None; error := None; message := None; cacheStatus := None;
     region := None; responseTime := None |}.
End ResponseOptions.

(** [APIResponse<T>]; [None] is a key the object does not have.
    [timestamp] is the instant that the source renders in ISO form. *)
Module APIResponse.
Record t (T : Type) : Type := mk {
  success : bool;
  data : option T;
  error : option string;
  message : option string;
  timestamp : Z;
  responseTime : option string;
  cacheStatus : option PerformanceMonitor.CacheStatus;
  region : option string
}.
Arguments mk {T}.
Arguments success {T}.
Arguments data {T}.
Arguments error {T}.
Arguments message {T}.
Arguments timestamp {T}.
Arguments responseTime {T}.
Arguments cacheStatus {T}.
Arguments region {T}.
End APIResponse.

Module Utils.

(** [ToBoolean] of a string that may be [null] or [undefined]. *)
Definition truthy_string (s : option string) : bool :=
  match s with
  | Some text => negb (String.eqb text "")
  | None => false
  end.

(** [a || b] for a string [a] that may be [null] or [undefined]. *)
Definition or_string (a : option string) (b : string) : string :=
  match a with
  | Some text => if String.eqb text "" then b else text
  | None => b
  end.

(** [s.split(',')[0]]: the text before the first comma. *)
Fixpoint before_comma (s : string) : string :=
  match s with
  | EmptyString => EmptyString
  | String c rest =>
      if Ascii.eqb c ","%char then EmptyString else String c (before_comma rest)
  end.

(** [headers] is the [Headers] object: [headers.get(name)] is the value of
    the header (names in lower case), or [null]. *)
Definition getClientIP (headers : gmap string string) : string :=
  or_string (before_comma <$> headers !! "x-forwarded-for")
    (or_string (headers !! "x-real-ip")
       (or_string (headers !! "x-vercel-forwarded-for") "unknown")).

Definition getClientRegion (headers : gmap string string) : string :=
  or_string (headers !! "x-vercel-ip-country")
    (or_string (headers !! "cf-ipcountry") "unknown").

Definition generateCacheKey (baseKey : string) (context : option KeyContext.t)
    : string :=
  let key := baseKey in
  let key :=
    match context ≫= KeyContext.region with
    | Some region => if truthy_string (Some region) then key +:+ ":" +:+ region else key
    | None => key
    end in
  let key :=
    match context ≫= KeyContext.userId with
    | Some userId => if truthy_string (Some userId) then key +:+ ":" +:+ userId else key
    | None => key
    end in
  key.

(** [createAPIResponse(data, options)], at the instant [now] that
    [new Date()] reads.  A key is spread into the object when its guard is
    truthy; the response time is an integer, written in decimal. *)
Definition createAPIResponse {T : Type} `{ToBoolean T}
    (now : Z) (data : option T) (options : option ResponseOptions.t)
    : APIResponse.t T :=
  let given {A : Type} (field : ResponseOptions.t → option A) : option A :=
    options ≫= field in
  {| APIResponse.success :=
       match given ResponseOptions.success with
       | Some flag => flag
       | None => negb (truthy_string (given ResponseOptions.error))
       end;
     APIResponse.data :=
       match data with
       | Some d => if to_boolean d then Some d else None
       | None => None
       end;
     APIResponse.error :=
       if truthy_string (given ResponseOptions.error)
       then given ResponseOptions.error else None;
     APIResponse.message :=
       if truthy_string (given ResponseOptions.message)
       then given ResponseOptions.message else None;
     APIResponse.timestamp := now;
     APIResponse.responseTime :=
       match given ResponseOptions.responseTime with
       | Some ms => if Js.truthy_num ms then Some (pretty ms +:+ "ms") else None
       | None => None
       end;
     APIResponse.cacheStatus := given ResponseOptions.cacheStatus;
     APIResponse.region :=
       if truthy_string (given ResponseOptions.region)
       then given ResponseOptions.region else None |}.

End Utils.

(* ===================================================================== *)
(** * The cache management endpoint (app/api/data/cache/route.ts)         *)
(* ===================================================================== *)

Module CacheRoute.
Import Runtime Utils.

(** The module-level singletons the handlers share: [globalRateLimiter]
    of lib/utils.ts, and [cache] of lib/cache.ts with the store behind
    it. *)
Record Server : Type := mkServer {
  globalRateLimiter : RateLimiter.t;
  world : World
}.

(** [NextResponse.json(body, { status })]; the status is 200 when none is
    given. *)
Record Response (T : Type) : Type := mkResponse {
  status : Z;
  body : APIResponse.t T
}.
Arguments mkResponse {T}.
Arguments status {T}.
Arguments body {T}.

(** The options [{ error }] and [{ message }]. *)
Definition error_option (text : string) : option ResponseOptions.t :=
  Some {| ResponseOptions.success := None; ResponseOptions.error := Some text;
          ResponseOptions.message := None; ResponseOptions.cacheStatus := None;
          ResponseOptions.region := None; ResponseOptions.responseTime := None |}.

Definition message_option (text : string) : option ResponseOptions.t :=
  Some {| ResponseOptions.success := None; ResponseOptions.error := None;
          ResponseOptions.message := Some text; ResponseOptions.cacheStatus := None;
          ResponseOptions.region := None; ResponseOptions.responseTime := None |}.

(** What a helper of the route ends in: a response, or the error it
    throws again with a message of its own. *)
Inductive handled (T : Type) : Type :=
| Responded (response : Response T)
| Rethrown (message : string) (cause : Error).
Arguments Responded {T} response.
Arguments Rethrown {T} message cause.

(** ** [handleCacheClear] *)

(** [{ cleared: true }] *)
Record Cleared : Type := mkCleared { cleared : bool }.

#[global] Instance Cleared_ToBoolean : ToBoolean Cleared := λ _, true.

Definition handleCacheClear (w : World) : handled Cleared * World :=
  match EdgeCache.clear w with
  | (Ok _, w1) =>
      (Responded
         {| status := 200;
            body := createAPIResponse (clock w1) (Some {| cleared := true |})
                      (message_option "All caches cleared successfully") |},
       w1)
  | (Throw error, w1) => (Rethrown "Failed to clear cache: " error, w1)
  end.

(** ** [handleCacheWarmup] *)

Inductive WarmStatus : Type :=
| warmed
| failed (error : Error).

(** [{ warmup: results, summary: { total, successful, failed } }] *)
Record WarmupReport : Type := mkReport {
  warmup : list (string * WarmStatus);
  total : Z;
  successful : Z;
  failures : Z
}.

Definition is_warmed (entry : string * WarmStatus) : bool :=
  match entry.2 with warmed => true | failed _ => false end.

(** The fetcher that [handleCacheWarmup] gives to [cache.get]:
    [data?.data || { message: ... }]. *)
Definition warm_fetcher (key : string) : EdgeCache.Fetcher :=
  data ← Database.get key;
  let fallback := Js.Obj [("message", Js.Str ("Default data for " +:+ key))] in
  mret (match data with
        | Some jd => if Js.truthy (JSONData.data jd) then JSONData.data jd else fallback
        | None => fallback
        end).

(** The loop over the keys, with its inner [try]/[catch]. *)
Fixpoint warm_each (keys : list string) (w : World)
    : list (string * WarmStatus) * World :=
  match keys with
  | [] => ([], w)
  | key :: rest =>
      let '(outcome, w1) :=
        EdgeCache.get ("data:" +:+ key) (Some (warm_fetcher key))
          EdgeCache.DEFAULT_TTL w in
      let entry :=
        match outcome with
        | Ok _ => (key, warmed)
        | Throw error => (key, failed error)
        end in
      let '(results, w2) := warm_each rest w1 in
      (entry :: results, w2)
  end.

(** The data of the three successful answers of [POST]. *)
Inductive PostData : Type :=
| InvalidatedKey (key : string)
| InvalidatedPattern (pattern : string)
| WarmedUp (report : WarmupReport).

#[global] Instance PostData_ToBoolean : ToBoolean PostData := λ _, true.

(** [keys] is the [keys] field of the body, an array of strings when it
    is given; [None] takes the default [[]]. *)
Definition handleCacheWarmup (keys : option (list string)) (w : World)
    : Response PostData * World :=
  let keys := default [] keys in
  if bool_decide (keys = []) then
    ({| status := 400;
        body := createAPIResponse (clock w) None
                  (error_option "Keys array is required for warmup") |},
     w)
  else
    let '(results, w1) := warm_each keys w in
    ({| status := 200;
        body :=
          createAPIResponse (clock w1)
            (Some (WarmedUp
                     {| warmup := results;
                        total := Z.of_nat (length keys);
                        successful :=
                          Z.of_nat (length (filter (λ r, is_warmed r = true) results));
                        failures :=
                          Z.of_nat (length (filter (λ r, is_warmed r = false) results)) |}))
            None |},
     w1).

(** ** [POST] *)

(** The parsed body, for the requests whose [action], [key] and [pattern]
    are strings and whose [keys] is an array of strings, when they are
    given. *)
Record PostBody : Type := mkBody {
  action : option string;
  key : option string;
  pattern : option string;
  keys : option (list string)
}.

(** [parsed] is what [request.json()] gives, [None] when it throws. *)
Definition POST (headers : gmap string string) (parsed : option PostBody)
    (s : Server) : Response PostData * Server :=
  let clientIP := getClientIP headers in
  let w := world s in
  let '(allowed, limiter) :=
    RateLimiter.isAllowed ("cache-post:" +:+ clientIP) (clock w)
      (globalRateLimiter s) in
  let answer (status : Z) (response : APIResponse.t PostData) (w1 : World) :=
    ({| status := status; body := response |},
     {| globalRateLimiter := limiter; world := w1 |}) in
  if negb allowed then
    answer 429 (createAPIResponse (clock w) None (error_option "Rate limit exceeded")) w
  else
    match parsed with
    | None =>
        let w1 := emit (Console "Cache POST operation failed:") w in
        answer 500
          (createAPIResponse (clock w1) None (error_option "Cache operation failed")) w1
    | Some fields =>
        if bool_decide (action fields = Some "invalidate") then
          if negb (truthy_string (key fields)) then
            answer 400
              (createAPIResponse (clock w) None
                 (error_option "Key is required for invalidation")) w
          else
            let key := default "" (key fields) in
            match EdgeCache.invalidate key w with
            | (Ok _, w1) =>
                answer 200
                  (createAPIResponse (clock w1) (Some (InvalidatedKey key))
                     (message_option ("Cache invalidated for key: " +:+ key))) w1
            | (Throw _, w1) =>
                let w2 := emit (Console "Cache POST operation failed:") w1 in
                answer 500
                  (createAPIResponse (clock w2) None
                     (error_option "Cache operation failed")) w2
            end
        else if bool_decide (action fields = Some "invalidatePattern") then
          if negb (truthy_string (pattern fields)) then
            answer 400
              (createAPIResponse (clock w) None
                 (error_option "Pattern is required for pattern invalidation")) w
          else
            let pattern := default "" (pattern fields) in
            match EdgeCache.invalidatePattern pattern w with
            | (Ok _, w1) =>
                answer 200
                  (createAPIResponse (clock w1) (Some (InvalidatedPattern pattern))
                     (message_option ("Cache invalidated for pattern: " +:+ pattern))) w1
            | (Throw _, w1) =>
                let w2 := emit (Console "Cache POST operation failed:") w1 in
                answer 500
                  (createAPIResponse (clock w2) None
                     (error_option "Cache operation failed")) w2
            end
        else if bool_decide (action fields = Some "warmup") then
          let '(response, w1) := handleCacheWarmup (keys fields) w in
          (response, {| globalRateLimiter := limiter; world := w1 |})
        else
          answer 400
            (createAPIResponse (clock w) None
               (error_option "Invalid action. Use: invalidate, invalidatePattern, warmup")) w
    end.

End CacheRoute.

(* ===================================================================== *)
(** * Properties of [RateLimiter]                                         *)
(* ===================================================================== *)

Section RateLimiterFacts.
Import RateLimiter.

Implicit Types (rl : RateLimiter.t) (identifier : string) (now : Z).

(** The pruned window holds the recorded timestamps that are strictly
    younger than [windowMs]. *)
Lemma validRequests_window rl identifier now (time : Z) :
  time ∈ validRequests rl identifier now ↔
  time ∈ default [] (requests rl !! identifier) ∧ now - windowMs rl < time.
Proof.
  unfold validRequests. rewrite list_elem_of_filter. split.
  - intros [Hlt Hin]. split; [done | lia].
  - intros [Hin Hlt]. split; [lia | done].
Qed.

Lemma validRequests_keeps_all rl identifier now (history : list Z) :
  default [] (requests rl !! identifier) = history →
  Forall (λ time, now - time < windowMs rl) history →
  validRequests rl identifier now = history.
Proof.
  intros Hget Hall. unfold validRequests. rewrite Hget. simpl. clear Hget.
  induction Hall as [| t l Ht _ IH]; [done |].
  rewrite filter_cons_True by done. by rewrite IH.
Qed.

Lemma isAllowed_admits rl identifier now :
  Z.of_nat (length (validRequests rl identifier now)) < maxRequests rl →
  isAllowed identifier now rl =
    (true,
     {| requests := <[identifier := validRequests rl identifier now ++ [now]]>
                      (requests rl);
        maxRequests := maxRequests rl;
        windowMs := windowMs rl |}).
Proof.
  intros Hlt. unfold isAllowed. cbv zeta.
  rewrite bool_decide_eq_false_2 by lia. reflexivity.
Qed.

Lemma isAllowed_rejects rl identifier now :
  maxRequests rl <= Z.of_nat (length (validRequests rl identifier now)) →
  isAllowed identifier now rl = (false, rl).
Proof.
  intros Hge. unfold isAllowed. cbv zeta.
  rewrite bool_decide_eq_true_2 by lia. reflexivity.
Qed.

(** A limiter whose whole history for [identifier] is [history]. *)
Lemma isAllowed_admits_full rl identifier now (history : list Z) :
  default [] (requests rl !! identifier) = history →
  Forall (λ time, now - time < windowMs rl) history →
  Z.of_nat (length history) < maxRequests rl →
  isAllowed identifier now rl =
    (true,
     {| requests := <[identifier := history ++ [now]]> (requests rl);
        maxRequests := maxRequests rl;
        windowMs := windowMs rl |}).
Proof.
  intros Hget Hall Hlt.
  rewrite isAllowed_admits; rewrite (validRequests_keeps_all _ _ _ _ Hget Hall); done.
Qed.

Lemma isAllowed_rejects_full rl identifier now (history : list Z) :
  default [] (requests rl !! identifier) = history →
  Forall (λ time, now - time < windowMs rl) history →
  maxRequests rl <= Z.of_nat (length history) →
  isAllowed identifier now rl = (false, rl).
Proof.
  intros Hget Hall Hge.
  apply isAllowed_rejects. by rewrite (validRequests_keeps_all _ _ _ _ Hget Hall).
Qed.

(** Once the oldest recorded request has left the window, fewer than the
    whole history is counted. *)
Lemma isAllowed_admits_after_window rl identifier now (oldest : Z) (others : list Z) :
  default [] (requests rl !! identifier) = oldest :: others →
  windowMs rl <= now - oldest →
  Z.of_nat (length others) < maxRequests rl →
  (isAllowed identifier now rl).1 = true.
Proof.
  intros Hget Hold Hlt.
  rewrite isAllowed_admits; [done |].
  unfold validRequests. rewrite Hget. simpl.
  rewrite filter_cons_False by lia.
  pose proof (length_filter (λ time, now - time < windowMs rl) others). lia.
Qed.

(** The specification's example, for any identifier and any clock
    readings: five admissions, a rejection, and an admission again once
    the first request is [windowMs] old. *)
Lemma five_then_reject_then_resume identifier (t1 t2 t3 t4 t5 t6 t7 : Z) :
  t1 <= t2 → t2 <= t3 → t3 <= t4 → t4 <= t5 → t5 <= t6 → t6 <= t7 →
  t6 - t1 < 1000 →
  1000 <= t7 - t1 →
  (calls identifier [t1; t2; t3; t4; t5; t6; t7] (new 5 1000)).1
  = [true; true; true; true; true; false; true].
Proof.
  intros H12 H23 H34 H45 H56 H67 Hspan Hout.
  cbn [calls].
  rewrite (isAllowed_admits_full _ _ t1 []);
    [| done | by constructor | cbn; lia ].
  cbn [app requests maxRequests windowMs new].
  rewrite (isAllowed_admits_full _ _ t2 [t1]);
    [| cbn; by rewrite lookup_insert_eq
     | repeat constructor; cbn; lia | cbn; lia ].
  cbn [app requests maxRequests windowMs].
  rewrite (isAllowed_admits_full _ _ t3 [t1; t2]);
    [| cbn; by rewrite lookup_insert_eq
     | repeat constructor; cbn; lia | cbn; lia ].
  cbn [app requests maxRequests windowMs].
  rewrite (isAllowed_admits_full _ _ t4 [t1; t2; t3]);
    [| cbn; by rewrite lookup_insert_eq
     | repeat constructor; cbn; lia | cbn; lia ].
  cbn [app requests maxRequests windowMs].
  rewrite (isAllowed_admits_full _ _ t5 [t1; t2; t3; t4]);
    [| cbn; by rewrite lookup_insert_eq
     | repeat constructor; cbn; lia | cbn; lia ].
  cbn [app requests maxRequests windowMs].
  rewrite (isAllowed_rejects_full _ _ t6 [t1; t2; t3; t4; t5]);
    [| cbn; by rewrite lookup_insert_eq
     | repeat constructor; cbn; lia | cbn; lia ].
  match goal with
  | |- context [isAllowed identifier t7 ?rl] =>
      pose proof (isAllowed_admits_after_window rl identifier t7 t1 [t2; t3; t4; t5])
        as Hlast;
      destruct (isAllowed identifier t7 rl) as [b rl7]
  end.
  cbn in Hlast. rewrite lookup_insert_eq in Hlast.
  rewrite Hlast; [done | done | lia | lia].
Qed.

(** C3 (as amended).  [isAllowed] keeps the recorded timestamps that are
    strictly younger than [windowMs] (the half-open window
    [(now - windowMs, now]]: a request exactly [windowMs] old is pruned),
    admits and records [now] after the kept ones exactly when fewer than
    [maxRequests] are kept, and otherwise rejects and leaves the limiter
    as it was.  With [maxRequests = 5] and [windowMs = 1000], six calls
    less than 1000 ms apart give five admissions and a rejection, and a
    call 1000 ms or more after the first is admitted again. *)
Theorem isAllowed_sliding_window :
  (∀ rl identifier now,
     let valid := validRequests rl identifier now in
     (∀ time : Z,
        time ∈ valid ↔
        time ∈ default [] (requests rl !! identifier) ∧ now - windowMs rl < time)
     ∧ isAllowed identifier now rl =
         if bool_decide (Z.of_nat (length valid) < maxRequests rl)
         then (true,
               {| requests := <[identifier := valid ++ [now]]> (requests rl);
                  maxRequests := maxRequests rl;
                  windowMs := windowMs rl |})
         else (false, rl))
  ∧ (∀ identifier (t1 t2 t3 t4 t5 t6 t7 : Z),
       t1 <= t2 → t2 <= t3 → t3 <= t4 → t4 <= t5 → t5 <= t6 → t6 <= t7 →
       t6 - t1 < 1000 →
       1000 <= t7 - t1 →
       (calls identifier [t1; t2; t3; t4; t5; t6; t7] (new 5 1000)).1
       = [true; true; true; true; true; false; true]).
Proof.
  split.
  - intros rl identifier now valid. subst valid. split.
    + intros time. apply validRequests_window.
    + case_bool_decide.
      * by apply isAllowed_admits.
      * apply isAllowed_rejects. lia.
  - apply five_then_reject_then_resume.
Qed.

Lemma isAllowed_sliding_window_witness :
  (calls "203.0.113.7" [0; 100; 200; 300; 400; 999; 1000] (new 5 1000)).1
  = [true; true; true; true; true; false; true].
Proof.
  apply (proj2 isAllowed_sliding_window "203.0.113.7" 0 100 200 300 400 999 1000);
    lia.
Defined.

(** C3 (as stated) fails at the boundary: after five requests at time 0,
    a request at time 1000 finds all five within [[now - windowMs, now]],
    so the stated rule rejects it, while the code has pruned them all
    and admits it. *)
Lemma isAllowed_closed_window_counterexample :
  let rl := (calls "a" [0; 0; 0; 0; 0] (new 5 1000)).2 in
  isAllowed_spec "a" 1000 rl = false ∧ (isAllowed "a" 1000 rl).1 = true.
Proof. vm_compute. split; reflexivity. Qed.

End RateLimiterFacts.

(* ===================================================================== *)
(** * Properties of [PerformanceMonitor]                                  *)
(* ===================================================================== *)

Section PerformanceMonitorFacts.
Import PerformanceMonitor.

Implicit Types (metrics : PerformanceMonitor.t) (metric : PerformanceMetrics).

(** ** The built-ins *)

Lemma sort_ascending_Sorted (arr : list Z) : Sorted Z.le (Js.sort_ascending arr).
Proof. apply (Sorted_merge_sort Z.le). Qed.

Lemma sort_ascending_Permutation (arr : list Z) : Js.sort_ascending arr ≡ₚ arr.
Proof. apply (merge_sort_Permutation Z.le). Qed.

Lemma sort_ascending_length (arr : list Z) :
  length (Js.sort_ascending arr) = length arr.
Proof. by rewrite sort_ascending_Permutation. Qed.

(** Sorting any arrangement of an ascending list gives that list. *)
Lemma sort_ascending_unique (arr ascending : list Z) :
  arr ≡ₚ ascending → Sorted Z.le ascending → Js.sort_ascending arr = ascending.
Proof.
  intros Hperm Hsorted.
  apply (Sorted_unique Z.le); [apply sort_ascending_Sorted | done |].
  by rewrite sort_ascending_Permutation.
Qed.

(** Up to the capacity of the buffer, the binary64 products
    [n * 0.95] and [n * 0.99] floor to the exact [⌊95n/100⌋] and
    [⌊99n/100⌋]. *)
Lemma floor_percent_table :
  Forall (λ n : nat,
            Js.Math_floor (PrimFloat.mul (Js.number (Z.of_nat n)) Js.lit_0_95)
              = Some (95 * Z.of_nat n / 100)
            ∧ Js.Math_floor (PrimFloat.mul (Js.number (Z.of_nat n)) Js.lit_0_99)
              = Some (99 * Z.of_nat n / 100))
         (seq 0 101).
Proof.
  apply (bool_decide_unpack _). vm_compute. exact I.
Qed.

Lemma floor_percent (n : nat) :
  (n ≤ 100)%nat →
  Js.Math_floor (PrimFloat.mul (Js.number (Z.of_nat n)) Js.lit_0_95)
    = Some (95 * Z.of_nat n / 100)
  ∧ Js.Math_floor (PrimFloat.mul (Js.number (Z.of_nat n)) Js.lit_0_99)
    = Some (99 * Z.of_nat n / 100).
Proof.
  intros Hn. pose proof floor_percent_table as Htable.
  rewrite Forall_forall in Htable. apply Htable.
  apply elem_of_seq. lia.
Qed.

Lemma slice_zero {A : Type} (arr : list A) : Js.slice 0 arr = arr.
Proof.
  unfold Js.slice. cbn.
  replace (Z.to_nat (0 `min` Z.of_nat (length arr))) with 0%nat by lia.
  apply drop_0.
Qed.

Lemma slice_negative_length {A : Type} (k : Z) (arr : list A) :
  0 < k <= Z.of_nat (length arr) →
  Z.of_nat (length (Js.slice (- k) arr)) = k.
Proof.
  intros Hk. unfold Js.slice.
  replace (- k <? 0) with true by (symmetry; apply Z.ltb_lt; lia).
  rewrite length_drop. lia.
Qed.

(** ** The buffer *)

Lemma addMetric_length metric metrics :
  Z.of_nat (length (addMetric metric metrics)) <= maxMetrics.
Proof.
  unfold addMetric. cbv zeta.
  destruct (Z.of_nat (length (metrics ++ [metric])) >? maxMetrics) eqn:Hover.
  - rewrite slice_negative_length; [done |]. unfold maxMetrics in *. lia.
  - lia.
Qed.

Lemma reachable_length metrics :
  reachable metrics → Z.of_nat (length metrics) <= maxMetrics.
Proof.
  induction 1 as [| m ms _ _ | ms _ _].
  - done.
  - apply addMetric_length.
  - done.
Qed.

Lemma addMetric_below_capacity metric metrics :
  Z.of_nat (length metrics) < maxMetrics →
  addMetric metric metrics = metrics ++ [metric].
Proof.
  intros Hlt. unfold addMetric. cbv zeta.
  replace (Z.of_nat (length (metrics ++ [metric])) >? maxMetrics) with false; [done |].
  symmetry. rewrite length_app. change (length [metric]) with 1%nat.
  unfold maxMetrics in *. rewrite Z.gtb_ltb. apply Z.ltb_ge. lia.
Qed.

Lemma record_all_below_capacity (samples : list PerformanceMetrics) metrics :
  Z.of_nat (length metrics + length samples) <= maxMetrics →
  record_all samples metrics = metrics ++ samples.
Proof.
  revert metrics. induction samples as [| s samples IH]; intros metrics Hlen.
  - by rewrite app_nil_r.
  - cbn [record_all fold_left]. cbn in Hlen.
    rewrite addMetric_below_capacity by lia.
    change (fold_left _ samples ?ms) with (record_all samples ms).
    rewrite IH; [by rewrite <- app_assoc |].
    rewrite length_app. cbn. lia.
Qed.

Lemma record_all_reachable (samples : list PerformanceMetrics) metrics :
  reachable metrics → reachable (record_all samples metrics).
Proof.
  revert metrics. induction samples as [| s samples IH]; intros metrics Hr; [done |].
  cbn. apply IH. by constructor.
Qed.

Lemma responseTimes_length metrics :
  length (responseTimes metrics) = length metrics.
Proof. unfold responseTimes. by rewrite sort_ascending_length, length_map. Qed.

Lemma or_zero_Some (v : Z) : Js.or_zero (Some v) = v.
Proof. unfold Js.or_zero, Js.truthy_num. destruct (Z.eqb_spec v 0); cbn; congruence. Qed.

Lemma ten_to_thousand_Sorted : Sorted Z.le ten_to_thousand.
Proof. apply (bool_decide_unpack _). vm_compute. exact I. Qed.

(** ** [getStats] *)

(** [cacheHits] is the number of samples whose status is [hit]. *)
Lemma cacheHits_counts_the_hits metrics :
  cacheHits metrics
  = Z.of_nat
      (length
         (List.filter
            (λ m, match cacheStatus m with hit => true | miss | stale => false end)
            metrics)).
Proof.
  unfold cacheHits, PerformanceMonitor.t in *. f_equal.
  induction metrics as [| m metrics IH]; [done |].
  rewrite filter_cons. cbn [List.filter].
  destruct (cacheStatus m); cbn [is_hit]; case_decide; try done;
    cbn [length]; by rewrite IH.
Qed.

(** C8.  For the samples a monitor can hold, [n] of them: the response
    times are sorted ascending; [p95ResponseTime] and [p99ResponseTime]
    are the entries of that sorted array at the indices [⌊n·0.95⌋] and
    [⌊n·0.99⌋] (the binary64 computation of the code yields exactly
    these integers, and the entries exist); [cacheHitRate] is the count
    of hit samples divided by [n], times 100; and with no sample every
    numeric field is zero. *)
Theorem getStats_semantics metrics :
  reachable metrics →
  let n := Z.of_nat (length metrics) in
  let sorted := responseTimes metrics in
  let stats := getStats metrics in
  Sorted Z.le sorted
  ∧ sorted ≡ₚ map responseTime metrics
  ∧ (n = 0 →
     stats = {| count := 0; averageResponseTime := 0%float;
                cacheHitRate := 0%float;
                p95ResponseTime := 0; p99ResponseTime := 0 |})
  ∧ (0 < n →
     count stats = n
     ∧ sorted !! Z.to_nat (95 * n / 100) = Some (p95ResponseTime stats)
     ∧ sorted !! Z.to_nat (99 * n / 100) = Some (p99ResponseTime stats)
     ∧ cacheHitRate stats
       = PrimFloat.mul
           (PrimFloat.div
              (Js.number
                 (Z.of_nat
                    (length
                       (List.filter
                          (λ m, match cacheStatus m with
                                | hit => true
                                | miss | stale => false
                                end)
                          metrics))))
              (Js.number n))
           (Js.number 100)).
Proof.
  intros Hreach n sorted stats. subst n sorted stats.
  pose proof (reachable_length _ Hreach) as Hcap. unfold maxMetrics in Hcap.
  split; [apply sort_ascending_Sorted |].
  split; [apply sort_ascending_Permutation |].
  split.
  - intros Hzero. unfold getStats. by rewrite Hzero.
  - intros Hpos. unfold getStats.
    destruct (Z.eqb_spec (Z.of_nat (length metrics)) 0) as [Hz | _]; [lia |].
    cbn [count p95ResponseTime p99ResponseTime cacheHitRate].
    unfold p95Index, p99Index. rewrite responseTimes_length.
    destruct (floor_percent (length metrics)) as [H95 H99]; [lia |].
    rewrite H95, H99. unfold Js.index.
    assert (0 <= 95 * Z.of_nat (length metrics) / 100
            < Z.of_nat (length metrics)) as [H95lo H95hi].
    { split; [apply Z.div_pos; lia | apply Z.div_lt_upper_bound; lia]. }
    assert (0 <= 99 * Z.of_nat (length metrics) / 100
            < Z.of_nat (length metrics)) as [H99lo H99hi].
    { split; [apply Z.div_pos; lia | apply Z.div_lt_upper_bound; lia]. }
    rewrite (proj2 (Z.ltb_ge _ _) H95lo), (proj2 (Z.ltb_ge _ _) H99lo).
    destruct (lookup_lt_is_Some_2 (responseTimes metrics)
                (Z.to_nat (95 * Z.of_nat (length metrics) / 100))) as [v95 Hv95].
    { rewrite responseTimes_length. lia. }
    destruct (lookup_lt_is_Some_2 (responseTimes metrics)
                (Z.to_nat (99 * Z.of_nat (length metrics) / 100))) as [v99 Hv99].
    { rewrite responseTimes_length. lia. }
    rewrite Hv95, Hv99, !or_zero_Some.
    rewrite cacheHits_counts_the_hits. done.
Qed.

Lemma getStats_semantics_witness :
  let metrics := record_all (map sample [30; 10; 20]) empty in
  let mixed :=
    record_all
      [ {| responseTime := 5; cacheStatus := hit; region := "iad1";
           timestamp := "2024-01-01T00:00:00.000Z" |};
        sample 15 ] empty in
  getStats empty
  = {| count := 0; averageResponseTime := 0%float; cacheHitRate := 0%float;
       p95ResponseTime := 0; p99ResponseTime := 0 |}
  ∧ responseTimes metrics !! Z.to_nat (95 * 3 / 100)
    = Some (p95ResponseTime (getStats metrics))
  ∧ cacheHitRate (getStats mixed) = 50%float.
Proof.
  intros metrics mixed. split; [| split].
  - apply (getStats_semantics empty reach_empty). reflexivity.
  - assert (reachable metrics) as Hreach
      by (apply record_all_reachable, reach_empty).
    apply (getStats_semantics metrics Hreach). reflexivity.
  - assert (reachable mixed) as Hreach
      by (apply record_all_reachable, reach_empty).
    destruct (getStats_semantics mixed Hreach) as (_ & _ & _ & Hsome).
    destruct (Hsome eq_refl) as (_ & _ & _ & Hrate).
    rewrite Hrate. vm_compute. reflexivity.
Defined.

(** C4 (as amended).  After recording exactly the 100 samples whose
    response times are 10, 20, ..., 1000, in any order,
    [p95ResponseTime] is 960: the entry at index [⌊100·0.95⌋ = 95],
    counted from 0, of the sorted response times, which is their 96th
    value. *)
Theorem p95_of_ten_to_thousand (samples : list PerformanceMetrics) :
  map responseTime samples ≡ₚ ten_to_thousand →
  p95ResponseTime (getStats (record_all samples empty)) = 960
  ∧ p95Index (record_all samples empty) = Some 95
  ∧ ten_to_thousand !! 95%nat = Some 960.
Proof.
  intros Hperm.
  assert (length samples = 100%nat) as Hlen.
  { erewrite <- length_map, Hperm. reflexivity. }
  rewrite record_all_below_capacity by (unfold empty, maxMetrics; cbn; lia).
  unfold empty. rewrite app_nil_l.
  assert (responseTimes samples = ten_to_thousand) as Hsorted.
  { apply sort_ascending_unique; [done | apply ten_to_thousand_Sorted]. }
  assert (p95Index samples = Some 95) as Hidx.
  { unfold p95Index. rewrite Hsorted. vm_compute. reflexivity. }
  split; [| split; [done | reflexivity]].
  unfold getStats. rewrite Hlen.
  change (Z.of_nat 100 =? 0) with false.
  cbn [p95ResponseTime]. rewrite Hidx, Hsorted. reflexivity.
Qed.

Lemma p95_of_ten_to_thousand_witness :
  p95ResponseTime
    (getStats (record_all (map sample (reverse ten_to_thousand)) empty)) = 960.
Proof.
  apply (p95_of_ten_to_thousand (map sample (reverse ten_to_thousand))).
  rewrite List.map_map. cbn [responseTime sample].
  rewrite List.map_id. apply reverse_Permutation.
Defined.

(** C4 (as stated) fails: for the samples recorded in ascending order the
    code answers 960, not 950. *)
Lemma p95_is_not_the_95th_value :
  p95ResponseTime
    (getStats (record_all (map sample ten_to_thousand) empty)) ≠ 950.
Proof. vm_compute. discriminate. Qed.

(** ** [getRecentMetrics] *)

(** C10.  [getRecentMetrics(0)] returns every stored sample, in the order
    of the buffer: [slice(-0)] is [slice(0)]. *)
Theorem getRecentMetrics_zero_returns_all metrics :
  getRecentMetrics 0 metrics = metrics.
Proof. unfold getRecentMetrics. change (- 0) with 0. apply slice_zero. Qed.

End PerformanceMonitorFacts.

(* ===================================================================== *)
(** * Properties of [EdgeCache]                                           *)
(* ===================================================================== *)

Section EdgeCacheFacts.
Import Runtime EdgeCache.

Implicit Types (w : World) (key pattern : string) (ttl : Z).

#[local] Ltac unfold_monad :=
  unfold mbind, M_bind, mret, M_ret, try_catch, console, Date_now,
    memory_get, memory_set, memory_delete, memory_clear, memory_update in *.

#[local] Ltac unfold_kv :=
  unfold Database.get, Database.set, Database.delete, Database.list,
    kv_get, kv_set, kv_setex, kv_del, kv_keys, kv_call in *.

(** ** The durable store's client *)

Lemma kv_call_inv {A : Type} ev
    (run : Z → gmap string KvItem → A * gmap string KvItem) w r w' :
  kv_call ev run w = (r, w') →
  memoryCache w' = memoryCache w
  ∧ clock w <= clock w'
  ∧ trace w' = trace w ++ [ev]
  ∧ schedule w' = (next_step w).2
  ∧ (∀ a, r = Ok a → kv w' = (run (clock w') (kv w)).2
                      ∧ a = (run (clock w') (kv w)).1)
  ∧ (∀ e, r = Throw e → kv w' = kv w).
Proof.
  unfold kv_call. destruct (next_step w) as [step rest].
  destruct (fails step).
  - intros [= <- <-]. cbn. repeat split; try done; lia.
  - destruct (run _ _) as [a kv1] eqn:Hrun. intros [= <- <-]. cbn.
    repeat split; try done; try lia.
    + by rewrite Hrun.
    + rewrite Hrun. cbn. congruence.
Qed.

(** ** [set] *)

Lemma set_never_throws key data ttl w : (set key data ttl w).1 = Ok tt.
Proof.
  unfold set. unfold_monad.
  destruct (Database.set _ _ _ w) as [[[] | e] w1]; reflexivity.
Qed.

(** When the durable write succeeds, [set] records the value in the
    local tier with the window [min(ttl * 1000, 10000)]. *)
Lemma set_after_durable_write key data ttl w w1 :
  Database.set (CACHE_PREFIX +:+ key) data (Some ttl) w = (Ok tt, w1) →
  set key data ttl w =
    (Ok tt,
     {| memoryCache :=
          <[CACHE_PREFIX +:+ key :=
              {| MemoryEntry.data := data;
                 MemoryEntry.expires := clock w1 + Z.min (ttl * 1000) 10000 |}]>
            (memoryCache w1);
        kv := kv w1; clock := clock w1; schedule := schedule w1;
        trace := trace w1 |}).
Proof. intros Hdb. unfold set. unfold_monad. rewrite Hdb. reflexivity. Qed.

(** When the durable write fails, the local tier is not written. *)
Lemma set_after_failed_write key data ttl w w1 e :
  Database.set (CACHE_PREFIX +:+ key) data (Some ttl) w = (Throw e, w1) →
  set key data ttl w =
    (Ok tt, emit (Console ("[CACHE] Set error for " +:+ key +:+ ":")) w1).
Proof. intros Hdb. unfold set. unfold_monad. rewrite Hdb. reflexivity. Qed.

(** ** [get] *)

Lemma get_memory_hit key fetcher ttl w e :
  memoryCache w !! (CACHE_PREFIX +:+ key) = Some e →
  clock w < MemoryEntry.expires e →
  get key fetcher ttl w =
    (Ok (MemoryEntry.data e), emit (Console ("[CACHE] Memory hit: " +:+ key)) w).
Proof.
  intros Hmem Hlive. unfold get. unfold_monad. rewrite Hmem.
  rewrite bool_decide_eq_true_2 by lia. reflexivity.
Qed.

Lemma get_memory_miss key fetcher ttl w :
  memory_misses w key →
  get key fetcher ttl w = after_memory key fetcher ttl w.
Proof.
  intros Hmiss. unfold get, after_memory. unfold_monad.
  destruct (memoryCache w !! (CACHE_PREFIX +:+ key)) as [e |] eqn:Hmem; [| done].
  rewrite bool_decide_eq_false_2; [done |].
  specialize (Hmiss e Hmem). lia.
Qed.

(** The durable read comes first in step 2, whatever its outcome. *)
Lemma check_kv_reads_durable_first key w :
  ∃ later, trace (check_kv key w).2
           = trace w ++ KvGet (CACHE_PREFIX +:+ key) :: later.
Proof.
  unfold check_kv. unfold_monad. unfold_kv.
  destruct (next_step w) as [step rest]. destruct (fails step); cbn.
  - eexists. unfold emit. cbn. rewrite <- app_assoc. reflexivity.
  - destruct (visible _ _ _) as [jd |]; cbn.
    + destruct (Js.truthy (JSONData.data jd)); cbn.
      * eexists. rewrite <- app_assoc. reflexivity.
      * exists []. reflexivity.
    + exists []. reflexivity.
Qed.

(** Step 2 does not read the local tier. *)
Lemma check_kv_ignores_memory key w cacheKey :
  (check_kv key (forget cacheKey w)).1 = (check_kv key w).1.
Proof.
  unfold check_kv, forget. unfold_monad. unfold_kv. unfold next_step. cbn.
  destruct (schedule w) as [| step rest]; cbn.
  - destruct (visible _ _ _) as [jd |]; cbn; [| done].
    by destruct (Js.truthy (JSONData.data jd)).
  - destruct (fails step); cbn; [done |].
    destruct (visible _ _ _) as [jd |]; cbn; [| done].
    by destruct (Js.truthy (JSONData.data jd)).
Qed.

Lemma db_get_inv cacheKey w r w1 :
  Database.get cacheKey w = (r, w1) →
  memoryCache w1 = memoryCache w ∧ clock w <= clock w1
  ∧ trace w1 = trace w ++ [KvGet cacheKey].
Proof.
  unfold Database.get, kv_get. intros Hcall.
  apply kv_call_inv in Hcall. destruct Hcall as (Hmem & Hclock & Htrace & _).
  done.
Qed.

Lemma check_kv_hit key w jd w1 :
  Database.get (CACHE_PREFIX +:+ key) w = (Ok (Some jd), w1) →
  Js.truthy (JSONData.data jd) = true →
  check_kv key w =
    (Ok (Some (JSONData.data jd)),
     {| memoryCache :=
          <[CACHE_PREFIX +:+ key :=
              {| MemoryEntry.data := JSONData.data jd;
                 MemoryEntry.expires := clock w1 + 10000 |}]> (memoryCache w1);
        kv := kv w1; clock := clock w1; schedule := schedule w1;
        trace := trace w1 ++ [Console ("[CACHE] KV hit: " +:+ key)] |}).
Proof.
  intros Hdb Htruthy. unfold check_kv. unfold_monad.
  rewrite Hdb, Htruthy. reflexivity.
Qed.

Lemma check_kv_falsy key w jd w1 :
  Database.get (CACHE_PREFIX +:+ key) w = (Ok (Some jd), w1) →
  Js.truthy (JSONData.data jd) = false →
  check_kv key w = (Ok None, w1).
Proof.
  intros Hdb Hfalsy. unfold check_kv. unfold_monad.
  rewrite Hdb, Hfalsy. reflexivity.
Qed.

Lemma forget_memory_misses w key : memory_misses (forget (CACHE_PREFIX +:+ key) w) key.
Proof. intros e. unfold forget. cbn. by rewrite lookup_delete_eq. Qed.

(** C6.  If the local tier's entry for a key has its [expires] at or
    before the current time, [get] does not answer from the local tier.
    What it does is spelled out in full: the next thing that happens is
    the read of the durable store; a truthy value found there is returned
    (and refreshes the local tier); otherwise the fetcher is invoked and
    its value stored and returned, or [null] is returned when there is no
    fetcher or the fetcher throws.  Without a fetcher the answer is the
    one [get] gives when the entry is not there at all. *)
Theorem get_never_serves_expired_entry w key ttl e :
  memoryCache w !! (CACHE_PREFIX +:+ key) = Some e →
  MemoryEntry.expires e <= clock w →
  let cacheKey := CACHE_PREFIX +:+ key in
  let step := (next_step w).1 in
  let now := clock w + Z.of_N (latency step) in
  let read : World :=
    {| memoryCache := memoryCache w; kv := kv w; clock := now;
       schedule := (next_step w).2; trace := trace w ++ [KvGet cacheKey] |} in
  let fall_through (fetcher : option Fetcher) (w1 : World) : result Js.value * World :=
    match fetcher with
    | None => (Ok Js.Null, w1)
    | Some f =>
        match f (emit (Console ("[CACHE] Miss: " +:+ key +:+ ", fetching fresh")) w1)
        with
        | (Ok freshData, w2) => (Ok freshData, (set key freshData ttl w2).2)
        | (Throw _, w2) =>
            (Ok Js.Null,
             emit (Console ("[CACHE] Fetcher error for " +:+ key +:+ ":")) w2)
        end
    end in
  (∀ fetcher,
     get key fetcher ttl w =
       if fails step then
         fall_through fetcher
           (emit (Console ("[CACHE] KV error for " +:+ key +:+ ":")) read)
       else
         match visible now (kv w) cacheKey with
         | Some jd =>
             if Js.truthy (JSONData.data jd) then
               (Ok (JSONData.data jd),
                {| memoryCache :=
                     <[cacheKey := {| MemoryEntry.data := JSONData.data jd;
                                      MemoryEntry.expires := now + 10000 |}]>
                       (memoryCache w);
                   kv := kv w; clock := now; schedule := (next_step w).2;
                   trace := trace w ++ [KvGet cacheKey;
                                        Console ("[CACHE] KV hit: " +:+ key)] |})
             else fall_through fetcher read
         | None => fall_through fetcher read
         end)
  ∧ (get key None ttl w).1 = (get key None ttl (forget cacheKey w)).1.
Proof.
  intros Hmem Hpast cacheKey step now read fall_through.
  subst cacheKey step now read fall_through.
  assert (memory_misses w key) as Hmiss.
  { intros e' He'. rewrite Hmem in He'. by injection He' as <-. }
  split.
  - intros fetcher. rewrite get_memory_miss by done.
    unfold after_memory, check_kv, fetch_fresh. unfold_monad. unfold_kv.
    cbv beta. destruct (next_step w) as [step rest]. cbn [fst snd].
    assert (∀ freshData w2, ∃ w3, set key freshData ttl w2 = (Ok tt, w3)) as Hset.
    { intros freshData w2.
      pose proof (set_never_throws key freshData ttl w2) as Hok.
      destruct (set key freshData ttl w2) as [r w3]. cbn in Hok. subst r.
      by exists w3. }
    destruct (fails step); cbn.
    + destruct fetcher as [f |]; [| done].
      unfold emit at 2. cbn.
      destruct (f _) as [[freshData | err] w2]; [| done].
      by destruct (Hset freshData w2) as [w3 ->].
    + destruct (visible _ _ _) as [jd |]; cbn.
      * destruct (Js.truthy (JSONData.data jd)); cbn.
        -- by rewrite <- app_assoc.
        -- destruct fetcher as [f |]; [| done].
           unfold emit at 2. cbn.
           destruct (f _) as [[freshData | err] w2]; [| done].
           by destruct (Hset freshData w2) as [w3 ->].
      * destruct fetcher as [f |]; [| done].
        unfold emit at 2. cbn.
        destruct (f _) as [[freshData | err] w2]; [| done].
        by destruct (Hset freshData w2) as [w3 ->].
  - rewrite !get_memory_miss by (done || apply forget_memory_misses).
    unfold after_memory. unfold mbind, M_bind.
    pose proof (check_kv_ignores_memory key w (CACHE_PREFIX +:+ key)) as Hsame.
    destruct (check_kv key w) as [[[v |] | err] w1],
             (check_kv key (forget (CACHE_PREFIX +:+ key) w)) as [[[v' |] | err'] w1'];
      cbn in Hsame; try discriminate; cbn; congruence.
Qed.

(** The falsy values of the cache's data. *)
Lemma truthy_false_iff (v : Js.value) :
  Js.truthy v = false ↔
  v = Js.Null ∨ v = Js.Bool false ∨ v = Js.Num 0 ∨ v = Js.Str "".
Proof.
  split.
  - destruct v as [| [] | n | s | |]; cbn; intros Hv; try discriminate; auto.
    + right; right; left. f_equal. apply negb_false_iff, Z.eqb_eq in Hv. done.
    + right; right; right. f_equal. by apply negb_false_iff, String.eqb_eq in Hv.
  - intros [-> | [-> | [-> | ->]]]; reflexivity.
Qed.

(** C9.  When the local tier does not answer and the durable tier
    returns an entry whose [data] is falsy, [get] treats it as a miss:
    the local tier is left as it was, without a fetcher the answer is
    [null], and a supplied fetcher is invoked (and its result stored
    through [set]). *)
Theorem get_falsy_durable_value_is_a_miss w key ttl jd w1 :
  memory_misses w key →
  Database.get (CACHE_PREFIX +:+ key) w = (Ok (Some jd), w1) →
  Js.truthy (JSONData.data jd) = false →
  memoryCache w1 = memoryCache w
  ∧ get key None ttl w = (Ok Js.Null, w1)
  ∧ ∀ f : Fetcher,
      get key (Some f) ttl w =
        match f (emit (Console ("[CACHE] Miss: " +:+ key +:+ ", fetching fresh")) w1)
        with
        | (Ok freshData, w2) => (Ok freshData, (set key freshData ttl w2).2)
        | (Throw _, w2) =>
            (Ok Js.Null,
             emit (Console ("[CACHE] Fetcher error for " +:+ key +:+ ":")) w2)
        end.
Proof.
  intros Hmiss Hdb Hfalsy.
  split; [by apply db_get_inv in Hdb as [? _] |].
  split.
  - rewrite get_memory_miss by done. unfold after_memory. unfold mbind, M_bind.
    by rewrite (check_kv_falsy _ _ _ _ Hdb Hfalsy).
  - intros f. rewrite get_memory_miss by done.
    unfold after_memory. unfold mbind at 1, M_bind at 1.
    rewrite (check_kv_falsy _ _ _ _ Hdb Hfalsy).
    unfold fetch_fresh. unfold_monad.
    destruct (f _) as [[freshData | err] w2]; [| done].
    pose proof (set_never_throws key freshData ttl w2) as Hset.
    destruct (set key freshData ttl w2) as [[[] | err] w3]; [done | discriminate].
Qed.

(** C1 (as amended).  When the local tier does not answer: a value
    found in the durable tier is put in the local tier with an expiry
    10 seconds after the current time, whatever TTL the caller
    requested; a value obtained from the fetcher goes through [set],
    which (its durable write succeeding) puts it in the local tier with
    an expiry [min(ttl * 1000, 10000)] milliseconds after the current
    time. *)
Theorem local_tier_refresh_window w key ttl :
  memory_misses w key →
  (∀ fetcher jd w1,
     Database.get (CACHE_PREFIX +:+ key) w = (Ok (Some jd), w1) →
     Js.truthy (JSONData.data jd) = true →
     ∃ w',
       get key fetcher ttl w = (Ok (JSONData.data jd), w')
       ∧ memoryCache w' !! (CACHE_PREFIX +:+ key)
         = Some {| MemoryEntry.data := JSONData.data jd;
                   MemoryEntry.expires := clock w' + 10000 |})
  ∧ (∀ (f : Fetcher) w1 freshData w2 w3,
       check_kv key w = (Ok None, w1) →
       f (emit (Console ("[CACHE] Miss: " +:+ key +:+ ", fetching fresh")) w1)
         = (Ok freshData, w2) →
       Database.set (CACHE_PREFIX +:+ key) freshData (Some ttl) w2 = (Ok tt, w3) →
       ∃ w',
         get key (Some f) ttl w = (Ok freshData, w')
         ∧ memoryCache w' !! (CACHE_PREFIX +:+ key)
           = Some {| MemoryEntry.data := freshData;
                     MemoryEntry.expires :=
                       clock w' + Z.min (ttl * 1000) 10000 |}).
Proof.
  intros Hmiss. split.
  - intros fetcher jd w1 Hdb Htruthy.
    rewrite get_memory_miss by done. unfold after_memory. unfold mbind, M_bind.
    rewrite (check_kv_hit _ _ _ _ Hdb Htruthy).
    eexists. split; [reflexivity |]. cbn. by rewrite lookup_insert_eq.
  - intros f w1 freshData w2 w3 Hkv Hfetch Hdb.
    rewrite get_memory_miss by done.
    unfold after_memory. unfold mbind at 1, M_bind at 1. rewrite Hkv.
    unfold fetch_fresh. unfold_monad. rewrite Hfetch.
    rewrite (set_after_durable_write _ _ _ _ _ Hdb).
    eexists. split; [reflexivity |]. cbn. by rewrite lookup_insert_eq.
Qed.

(** C2 (as amended).  When the durable write of [set(k, v, ttl)]
    succeeds, a [get(k)] issued at once, or any time less than
    [min(ttl * 1000, 10000)] milliseconds later, returns [v] from the
    local tier as a memory hit, whatever fetcher and TTL it is given,
    without touching the durable tier.  There is such a time only for a
    positive [ttl]. *)
Theorem set_then_get_hits_memory w key v ttl w1 elapsed fetcher ttl' :
  Database.set (CACHE_PREFIX +:+ key) v (Some ttl) w = (Ok tt, w1) →
  0 <= elapsed < Z.min (ttl * 1000) 10000 →
  let w2 := elapse elapsed (set key v ttl w).2 in
  0 < ttl
  ∧ get key fetcher ttl' w2
    = (Ok v, emit (Console ("[CACHE] Memory hit: " +:+ key)) w2).
Proof.
  intros Hdb Hsoon w2. subst w2. split; [lia |].
  rewrite (set_after_durable_write _ _ _ _ _ Hdb). cbn [snd].
  rewrite (get_memory_hit key fetcher ttl' _
             {| MemoryEntry.data := v;
                MemoryEntry.expires := clock w1 + Z.min (ttl * 1000) 10000 |}).
  - reflexivity.
  - unfold elapse. cbn. by rewrite lookup_insert_eq.
  - unfold elapse. cbn. lia.
Qed.

(** ** Loops over the keys of the durable store *)

Lemma for_of_appends {A : Type} (body : A → M unit) :
  (∀ x w, ∃ later, trace (body x w).2 = trace w ++ later) →
  ∀ xs w, ∃ later, trace (for_of xs body w).2 = trace w ++ later.
Proof.
  intros Hbody xs. induction xs as [| x xs IH]; intros w.
  - exists []. cbn. by rewrite app_nil_r.
  - cbn [for_of]. unfold mbind, M_bind.
    destruct (Hbody x w) as [l1 Hl1].
    destruct (body x w) as [[[] | err] w1]; cbn in Hl1.
    + destruct (IH w1) as [l2 Hl2]. exists (l1 ++ l2).
      by rewrite Hl2, Hl1, app_assoc.
    + by exists l1.
Qed.

Lemma delete_both_appends (key : string) w :
  ∃ later, trace ((Database.delete key;; memory_delete key) w).2 = trace w ++ later.
Proof.
  unfold_monad. unfold_kv.
  destruct (next_step w) as [step rest]. destruct (fails step); cbn; by eexists.
Qed.

Lemma db_delete_inv key w r w1 :
  Database.delete key w = (r, w1) →
  memoryCache w1 = memoryCache w
  ∧ clock w <= clock w1
  ∧ schedule w1 = (next_step w).2
  ∧ (r = Ok tt → kv w1 = base.delete key (kv w))
  ∧ (∀ e, r = Throw e → kv w1 = kv w)
  ∧ (fails (next_step w).1 = false → r = Ok tt).
Proof.
  unfold Database.delete, kv_del, kv_call.
  destruct (next_step w) as [step rest]. cbn [fst snd].
  destruct (fails step).
  - intros [= <- <-]. cbn. repeat split; try done; lia.
  - intros [= <- <-]. cbn. repeat split; try done; lia.
Qed.

Lemma next_step_healthy w :
  Forall (λ s, fails s = false) (schedule w) →
  fails (next_step w).1 = false
  ∧ Forall (λ s, fails s = false) (next_step w).2.
Proof.
  unfold next_step. intros Hall.
  destruct (schedule w) as [| s rest]; [done |].
  by inversion Hall.
Qed.

(** The loop of [clear]: it leaves the local tier alone, time does not
    go back, a key of the store is either removed or kept as it was, and
    when the loop completes every listed key has been removed. *)
Lemma for_of_delete_inv (keys : list string) w r w' :
  for_of keys (λ key, Database.delete key) w = (r, w') →
  memoryCache w' = memoryCache w
  ∧ clock w <= clock w'
  ∧ (∀ k, kv w' !! k = None ∨ kv w' !! k = kv w !! k)
  ∧ (r = Ok tt → ∀ k, k ∈ keys → kv w' !! k = None)
  ∧ (Forall (λ s, fails s = false) (schedule w) → r = Ok tt).
Proof.
  revert w. induction keys as [| key keys IH]; intros w.
  - cbn. intros [= <- <-]. repeat split; try done; try lia.
    + by right.
    + intros _ k Hk. by apply elem_of_nil in Hk.
  - cbn [for_of]. unfold mbind, M_bind.
    destruct (Database.delete key w) as [[[] | err] w1] eqn:Hdel.
    + apply db_delete_inv in Hdel
        as (Hmem1 & Hclock1 & Hsched1 & Hkv1 & _ & _).
      specialize (Hkv1 eq_refl). intros Hrest.
      apply IH in Hrest as (Hmem & Hclock & Hkeep & Hgone & Hok).
      split; [congruence |]. split; [lia |]. split; [| split].
      * intros k. destruct (Hkeep k) as [Hnone | Hsame]; [by left |].
        rewrite Hsame, Hkv1.
        destruct (decide (key = k)) as [-> | Hne].
        -- left. apply lookup_delete_eq.
        -- right. by apply lookup_delete_ne.
      * intros Hr k Hk. apply elem_of_cons in Hk as [-> | Hk].
        -- destruct (Hkeep key) as [Hnone | Hsame]; [done |].
           rewrite Hsame, Hkv1. apply lookup_delete_eq.
        -- by apply Hgone.
      * intros Hall. apply Hok. rewrite Hsched1.
        by apply next_step_healthy.
    + intros [= <- <-].
      apply db_delete_inv in Hdel
        as (Hmem1 & Hclock1 & _ & _ & Hkv1 & Hfail).
      specialize (Hkv1 err eq_refl).
      split; [done |]. split; [done |]. split; [| split].
      * intros k. right. by rewrite Hkv1.
      * discriminate.
      * intros Hall. apply next_step_healthy in Hall as [Hhead _].
        specialize (Hfail Hhead). discriminate.
Qed.

(** The pattern [clear] lists with matches the keys that carry the
    prefix. *)
Lemma glob_match_cache_star (key : string) :
  glob_match (CACHE_PREFIX +:+ "*") key = String.prefix CACHE_PREFIX key.
Proof.
  unfold CACHE_PREFIX. change ("cache:" +:+ "*") with "cache:*".
  cbn [glob_match].
  do 6 (destruct key as [| a key]; [reflexivity |];
        cbn [String.prefix];
        match goal with
        | |- context [ascii_dec ?c a] =>
            destruct (ascii_dec c a) as [<- | Hne];
            [ rewrite Ascii.eqb_refl
            | rewrite (proj2 (Ascii.eqb_neq _ _) Hne); reflexivity ]
        end).
  by destruct key.
Qed.

(** ** [invalidatePattern] and [clear] *)

(** C5 (as amended).  [invalidatePattern] does not validate its input:
    given the empty pattern, the first thing it does is to call the
    durable tier's list operation, with the bare prefix [cache:] as the
    pattern, and it completes without signalling any error to its
    caller. *)
Theorem invalidatePattern_empty_pattern w :
  (invalidatePattern "" w).1 = Ok tt
  ∧ ∃ later, trace (invalidatePattern "" w).2 = trace w ++ KvKeys "cache:" :: later.
Proof.
  unfold invalidatePattern.
  set (body := λ key : string, Database.delete key;; memory_delete key).
  assert (∀ x w0, ∃ later, trace (body x w0).2 = trace w0 ++ later) as Hbody
    by (intros x w0; apply delete_both_appends).
  unfold try_catch, mbind, M_bind.
  change (CACHE_PREFIX +:+ "") with "cache:".
  destruct (Database.list "cache:" w) as [[keys | err] w1] eqn:Hlist;
    unfold Database.list, kv_keys in Hlist;
    apply kv_call_inv in Hlist as (_ & _ & Htrace & _).
  - destruct (for_of_appends body Hbody keys w1) as [later Hlater].
    destruct (for_of keys body w1) as [[[] | err] w2]; cbn in *.
    + split; [done |]. exists later. by rewrite Hlater, Htrace, <- app_assoc.
    + split; [done |].
      exists (later ++ [Console ("[CACHE] Invalidate pattern error for " +:+ "" +:+ ":")]).
      rewrite Hlater, Htrace, <- !app_assoc. reflexivity.
  - cbn. split; [done |]. eexists. by rewrite Htrace, <- app_assoc.
Qed.

(** C5 (as stated) fails: on an idle process the empty pattern is passed
    on to the durable tier's list operation, and the call returns
    normally. *)
Lemma empty_pattern_reaches_durable_tier :
  invalidatePattern "" Examples.idle = (Ok tt, emit (KvKeys "cache:") Examples.idle).
Proof. vm_compute. reflexivity. Qed.

(** C7 (as amended).  [clear] never throws.  When the list operation and
    every delete succeed, no key carrying the prefix [cache:] is left in
    the durable tier and the local tier is empty; when the list
    operation or a delete fails, the error is logged and the local tier
    is left as it was.  The first happens whenever no call of the store
    fails, the second whenever the list operation fails. *)
Theorem clear_semantics w :
  (∀ w1, clear_try w = (Ok tt, w1) →
     clear w = (Ok tt, w1)
     ∧ memoryCache w1 = ∅
     ∧ ∀ key, String.prefix CACHE_PREFIX key = true →
              visible (clock w1) (kv w1) key = None)
  ∧ (∀ e w1, clear_try w = (Throw e, w1) →
       clear w = (Ok tt, emit (Console "[CACHE] Clear error:") w1)
       ∧ memoryCache (clear w).2 = memoryCache w)
  ∧ (Forall (λ s, fails s = false) (schedule w) →
     ∃ w1, clear_try w = (Ok tt, w1))
  ∧ (∀ s rest, schedule w = s :: rest → fails s = true →
     ∃ e w1, clear_try w = (Throw e, w1)).
Proof.
  unfold clear, try_catch.
  unfold clear_try. unfold mbind, M_bind, memory_clear, memory_update.
  destruct (Database.list (CACHE_PREFIX +:+ "*") w) as [[keys | err] wa] eqn:Hlist.
  - pose proof Hlist as Hcall. unfold Database.list, kv_keys in Hcall.
    apply kv_call_inv in Hcall as (Hmema & _ & _ & Hscheda & Hok & _).
    destruct (Hok keys eq_refl) as [Hkva Hkeys]. cbn [fst snd] in Hkva, Hkeys.
    destruct (for_of keys _ wa) as [[[] | err] wb] eqn:Hloop;
      apply for_of_delete_inv in Hloop as (Hmemb & Hclockb & Hkeep & Hgone & Hhealthy).
    + split; [| split; [| split]].
      * intros w1 [= <-]. split; [done |]. split; [done |]. cbn.
        intros key Hprefix. unfold visible.
        destruct (Hkeep key) as [-> | Hsame]; [done |].
        rewrite Hsame, Hkva.
        destruct (kv w !! key) as [it |] eqn:Hit; [| done].
        destruct (live (clock wb) it) eqn:Hlive; [| done].
        assert (key ∈ keys) as Hin.
        { rewrite Hkeys. apply list_elem_of_filter. split.
          - split; [by rewrite glob_match_cache_star |].
            unfold visible. rewrite Hit.
            assert (live (clock wa) it = true) as ->; [| done].
            unfold live in *. destruct (deadline it) as [d |]; [| done].
            apply bool_decide_eq_true in Hlive. apply bool_decide_eq_true. lia.
          - apply elem_of_elements, elem_of_dom. by exists it. }
        specialize (Hgone eq_refl key Hin).
        rewrite Hsame, Hkva, Hit in Hgone. discriminate.
      * intros e w1 [=].
      * intros _. by eexists.
      * intros s rest Hsched Hfails. exfalso.
        unfold Database.list, kv_keys, kv_call, next_step in Hlist.
        rewrite Hsched, Hfails in Hlist. discriminate.
    + split; [| split; [| split]].
      * intros w1 [=].
      * intros e w1 [= <- <-]. split; [done |]. cbn. congruence.
      * intros Hall. exfalso.
        assert (Ok tt = Throw err) as Habs; [| discriminate].
        symmetry. apply Hhealthy. rewrite Hscheda. by apply next_step_healthy.
      * intros s rest Hsched Hfails. exfalso.
        unfold Database.list, kv_keys, kv_call, next_step in Hlist.
        rewrite Hsched, Hfails in Hlist. discriminate.
  - pose proof Hlist as Hcall. unfold Database.list, kv_keys in Hcall.
    apply kv_call_inv in Hcall as (Hmema & _).
    split; [| split; [| split]].
    + intros w1 [=].
    + intros e w1 [= <- <-]. split; [done |]. cbn. congruence.
    + intros Hall. exfalso. apply next_step_healthy in Hall as [Hhead _].
      unfold Database.list, kv_keys, kv_call in Hlist.
      destruct (next_step w) as [step rest]. cbn in Hhead.
      rewrite Hhead in Hlist. discriminate.
    + intros _ _ _ _. by eexists _, _.
Qed.

(** ** [cleanupMemory] *)

(** The sweep keeps exactly the entries whose [expires] is in the future. *)
Lemma cleanupMemory_keeps_live w cacheKey e :
  memoryCache (cleanupMemory w).2 !! cacheKey = Some e ↔
  memoryCache w !! cacheKey = Some e ∧ clock w < MemoryEntry.expires e.
Proof.
  unfold cleanupMemory. unfold_monad. cbn.
  rewrite map_lookup_filter_Some. cbn. split; intros [Hget Hlive]; (split; [done | lia]).
Qed.

(** ** Concrete runs *)

Lemma idle_memory_misses key : memory_misses Examples.idle key.
Proof. intros e He. unfold Examples.idle in He. cbn in He. by rewrite lookup_empty in He. Qed.

Lemma stale_local_memory_misses v : memory_misses (Examples.stale_local v) "k".
Proof.
  intros e He. vm_compute in He. injection He as <-. vm_compute. discriminate.
Qed.

Lemma local_tier_refresh_window_witness :
  (∃ w',
     get "k" None 5 (Examples.stale_local (Js.Str "v")) = (Ok (Js.Str "v"), w')
     ∧ memoryCache w' !! (CACHE_PREFIX +:+ "k")
       = Some {| MemoryEntry.data := Js.Str "v";
                 MemoryEntry.expires := clock w' + 10000 |})
  ∧ (∃ w',
       get "k" (Some Examples.fresh_fetcher) 60 Examples.idle
       = (Ok (Js.Str "fresh"), w')
       ∧ memoryCache w' !! (CACHE_PREFIX +:+ "k")
         = Some {| MemoryEntry.data := Js.Str "fresh";
                   MemoryEntry.expires := clock w' + Z.min (60 * 1000) 10000 |}).
Proof.
  split.
  - refine (proj1 (local_tier_refresh_window (Examples.stale_local (Js.Str "v")) "k" 5
                     (stale_local_memory_misses (Js.Str "v")))
                  None
                  {| JSONData.id := "cache:k"; JSONData.data := Js.Str "v";
                     JSONData.timestamp := 1700000000000; JSONData.version := 1;
                     JSONData.expires := Some 1700000060000 |}
                  (Database.get "cache:k" (Examples.stale_local (Js.Str "v"))).2
                  _ _).
    + vm_compute. reflexivity.
    + reflexivity.
  - eapply (proj2 (local_tier_refresh_window Examples.idle "k" 60
                     (idle_memory_misses "k"))).
    + vm_compute. reflexivity.
    + vm_compute. reflexivity.
    + vm_compute. reflexivity.
Defined.

(** C1 (as stated) fails on both counts.  A durable-tier hit for a
    caller asking for 5 seconds gives the local entry 10 seconds, not
    [min(5 s, 10 s)]; a fresh fetch for a caller asking for 60 seconds
    gives the local entry 10 seconds, not the full 60. *)
Lemma refresh_window_counterexample :
  let hit := get "k" None 5 (Examples.stale_local (Js.Str "v")) in
  let fetched := get "k" (Some Examples.fresh_fetcher) 60 Examples.idle in
  (hit.1 = Ok (Js.Str "v")
   ∧ last (trace hit.2) = Some (Console "[CACHE] KV hit: k")
   ∧ MemoryEntry.expires <$> memoryCache hit.2 !! "cache:k"
     = Some (clock hit.2 + 10000)
   ∧ clock hit.2 + 10000 ≠ clock hit.2 + Z.min (5 * 1000) 10000)
  ∧ (fetched.1 = Ok (Js.Str "fresh")
     ∧ MemoryEntry.expires <$> memoryCache fetched.2 !! "cache:k"
       = Some (clock fetched.2 + 10000)
     ∧ clock fetched.2 + 10000 ≠ clock fetched.2 + 60 * 1000).
Proof. vm_compute. repeat split; (reflexivity || discriminate). Qed.

Lemma set_then_get_hits_memory_witness :
  let w2 := elapse 0 (set "k" (Js.Str "v") 60 Examples.idle).2 in
  get "k" None 60 w2 = (Ok (Js.Str "v"), emit (Console "[CACHE] Memory hit: k") w2).
Proof.
  refine (proj2 (set_then_get_hits_memory Examples.idle "k" (Js.Str "v") 60
                   (Database.set "cache:k" (Js.Str "v") (Some 60) Examples.idle).2
                   0 None 60 _ _)).
  - vm_compute. reflexivity.
  - lia.
Defined.

(** C2 (as stated) fails for [ttl = 0]: the local entry written by [set]
    expires at once, so the [get] that follows goes to the durable tier
    and is a durable-tier hit, not a memory hit; and when the value is
    falsy as well it is not returned at all.  It also fails when the
    durable write of [set] fails, which leaves the local tier
    unwritten. *)
Lemma zero_ttl_is_not_a_memory_hit :
  let w1 := (set "k" (Js.Str "v") 0 Examples.idle).2 in
  let w1' := (set "k" (Js.Num 0) 0 Examples.idle).2 in
  let w1'' := (set "k" (Js.Str "v") 60 (Examples.failing_next Examples.idle)).2 in
  (trace (get "k" None 60 w1).2
   = trace w1 ++ [KvGet "cache:k"; Console "[CACHE] KV hit: k"]
   ∧ get "k" None 60 w1 ≠ (Ok (Js.Str "v"), emit (Console "[CACHE] Memory hit: k") w1))
  ∧ (get "k" None 60 w1').1 = Ok Js.Null
  ∧ (get "k" None 60 w1'').1 = Ok Js.Null.
Proof.
  split; [split | split].
  - vm_compute. reflexivity.
  - intros Heq. apply (f_equal (λ r, trace r.2)) in Heq.
    vm_compute in Heq. discriminate.
  - vm_compute. reflexivity.
  - vm_compute. reflexivity.
Qed.

Lemma get_never_serves_expired_entry_witness :
  (get "k" None 60 (Examples.stale_local (Js.Str "v"))).1
  = (get "k" None 60 (forget "cache:k" (Examples.stale_local (Js.Str "v")))).1.
Proof.
  refine (proj2 (get_never_serves_expired_entry
                   (Examples.stale_local (Js.Str "v")) "k" 60
                   {| MemoryEntry.data := Js.Str "v";
                      MemoryEntry.expires := 1700000010000 |} _ _)).
  - vm_compute. reflexivity.
  - vm_compute. discriminate.
Defined.

Lemma get_falsy_durable_value_is_a_miss_witness :
  ∃ w1, get "k" None 60 (Examples.stale_local (Js.Num 0)) = (Ok Js.Null, w1).
Proof.
  eexists.
  refine (proj1 (proj2 (get_falsy_durable_value_is_a_miss
                          (Examples.stale_local (Js.Num 0)) "k" 60
                          {| JSONData.id := "cache:k"; JSONData.data := Js.Num 0;
                             JSONData.timestamp := 1700000000000;
                             JSONData.version := 1;
                             JSONData.expires := Some 1700000060000 |}
                          _ (stale_local_memory_misses (Js.Num 0)) _ _))).
  - vm_compute. reflexivity.
  - reflexivity.
Defined.

Lemma clear_semantics_witness :
  let w := Examples.stale_local (Js.Str "v") in
  (clear w = (Ok tt, (clear_try w).2)
   ∧ memoryCache (clear_try w).2 = ∅
   ∧ ∀ key, String.prefix CACHE_PREFIX key = true →
            visible (clock (clear_try w).2) (kv (clear_try w).2) key = None)
  ∧ (clear (Examples.failing_next w)
     = (Ok tt, emit (Console "[CACHE] Clear error:")
                 (clear_try (Examples.failing_next w)).2)
     ∧ memoryCache (clear (Examples.failing_next w)).2
       = memoryCache (Examples.failing_next w))
  ∧ (∃ w1, clear_try w = (Ok tt, w1))
  ∧ (∃ e w1, clear_try (Examples.failing_next w) = (Throw e, w1)).
Proof.
  intros w. split; [| split; [| split]].
  - apply (proj1 (clear_semantics w) (clear_try w).2).
    vm_compute. reflexivity.
  - apply (proj1 (proj2 (clear_semantics (Examples.failing_next w)))
             (StoreError (KvKeys "cache:*"))
             (clear_try (Examples.failing_next w)).2).
    vm_compute. reflexivity.
  - apply (proj1 (proj2 (proj2 (clear_semantics w)))).
    vm_compute. constructor.
  - apply (proj2 (proj2 (proj2 (clear_semantics (Examples.failing_next w))))
             {| latency := 3; fails := true |} []); reflexivity.
Defined.

(** C7 (as stated) fails: when the durable tier's list operation fails,
    [clear] leaves the entry of the local tier where it was. *)
Lemma clear_keeps_local_tier_on_failure :
  let w := Examples.failing_next (set "k" (Js.Str "v") 60 Examples.idle).2 in
  (clear w).1 = Ok tt
  ∧ trace (clear w).2 = trace w ++ [KvKeys "cache:*"; Console "[CACHE] Clear error:"]
  ∧ memoryCache (clear w).2 !! "cache:k"
    = Some {| MemoryEntry.data := Js.Str "v"; MemoryEntry.expires := 1700000010000 |}
  ∧ memoryCache (clear w).2 ≠ ∅.
Proof.
  split; [| split; [| split]]; try (vm_compute; reflexivity).
  intros Hempty. apply (f_equal (λ m, m !! "cache:k")) in Hempty.
  vm_compute in Hempty. discriminate.
Qed.

End EdgeCacheFacts.

(* ===================================================================== *)
(** * More about [RateLimiter]                                            *)
(* ===================================================================== *)

Section RateLimiterQuota.
Import RateLimiter RateLimiterRuns.

Implicit Types (rl : RateLimiter.t) (identifier : string) (now : Z).

(** X1.  [isAllowed] admits a request exactly when
    [getRemainingRequests], asked at the same instant, is positive. *)
Theorem isAllowed_iff_remaining rl identifier now :
  (isAllowed identifier now rl).1 = true ↔
  0 < getRemainingRequests identifier now rl.
Proof.
  unfold isAllowed, getRemainingRequests. cbv zeta.
  case_bool_decide; cbn; split; intros; (done || lia).
Qed.

Lemma validRequests_after_admission rl identifier now :
  0 < windowMs rl →
  validRequests
    {| requests := <[identifier := validRequests rl identifier now ++ [now]]>
                     (requests rl);
       maxRequests := maxRequests rl; windowMs := windowMs rl |}
    identifier now
  = validRequests rl identifier now ++ [now].
Proof.
  intros Hwindow. unfold validRequests at 1. cbn.
  rewrite lookup_insert_eq. cbn. rewrite filter_app.
  rewrite filter_cons_True, filter_nil by lia.
  f_equal. unfold validRequests.
  apply list_filter_filter_l. done.
Qed.

(** X2.  With a positive window, an admitted request uses up exactly one
    unit of the identifier's quota. *)
Theorem admitted_request_uses_one_unit rl identifier now :
  0 < windowMs rl →
  (isAllowed identifier now rl).1 = true →
  getRemainingRequests identifier now (isAllowed identifier now rl).2
  = getRemainingRequests identifier now rl - 1.
Proof.
  intros Hwindow Hadmitted.
  unfold isAllowed in *. cbv zeta in *.
  case_bool_decide as Hfull; [done |]. cbn [snd].
  unfold getRemainingRequests.
  rewrite validRequests_after_admission by done. cbn.
  rewrite length_app. cbn. lia.
Qed.

Lemma admitted_request_uses_one_unit_witness :
  getRemainingRequests "a" 500 (isAllowed "a" 500 (new 5 1000)).2 = 5 - 1.
Proof.
  apply (admitted_request_uses_one_unit (new 5 1000) "a" 500).
  - reflexivity.
  - vm_compute. reflexivity.
Defined.

(** X3.  Identifiers do not interfere: a call for one identifier leaves
    the history of every other identifier, its remaining quota and the
    decision it would get, as they were. *)
Theorem isAllowed_isolates_identifiers rl (a b : string) now (later : Z) :
  a ≠ b →
  requests (isAllowed a now rl).2 !! b = requests rl !! b
  ∧ getRemainingRequests b later (isAllowed a now rl).2
    = getRemainingRequests b later rl
  ∧ (isAllowed b later (isAllowed a now rl).2).1 = (isAllowed b later rl).1.
Proof.
  intros Hne.
  assert (requests (isAllowed a now rl).2 !! b = requests rl !! b
          ∧ maxRequests (isAllowed a now rl).2 = maxRequests rl
          ∧ windowMs (isAllowed a now rl).2 = windowMs rl) as (Hreq & Hmax & Hwin).
  { unfold isAllowed. cbv zeta. case_bool_decide; cbn; [done |].
    by rewrite lookup_insert_ne. }
  assert (validRequests (isAllowed a now rl).2 b later = validRequests rl b later)
    as Hvalid.
  { unfold validRequests. by rewrite Hreq, Hwin. }
  split; [done |]. split.
  - unfold getRemainingRequests. by rewrite Hvalid, Hmax.
  - unfold isAllowed at 1 3. cbv zeta. rewrite Hvalid, Hmax.
    by case_bool_decide.
Qed.

Lemma isAllowed_isolates_identifiers_witness :
  (isAllowed "b" 20 (isAllowed "a" 10 (new 1 1000)).2).1
  = (isAllowed "b" 20 (new 1 1000)).1.
Proof.
  apply (isAllowed_isolates_identifiers (new 1 1000) "a" "b" 10 20).
  discriminate.
Defined.

(** X4.  [reset] gives the identifier its whole quota back, so that its
    next request is admitted whenever the limiter allows any request at
    all, and leaves the other identifiers alone. *)
Theorem reset_restores_quota rl identifier now :
  getRemainingRequests identifier now (reset identifier rl)
  = Z.max 0 (maxRequests rl)
  ∧ ((isAllowed identifier now (reset identifier rl)).1 = true ↔
     0 < maxRequests rl)
  ∧ ∀ other, other ≠ identifier →
      requests (reset identifier rl) !! other = requests rl !! other.
Proof.
  assert (validRequests (reset identifier rl) identifier now = []) as Hvalid.
  { unfold validRequests, reset. cbn. by rewrite lookup_delete_eq. }
  split; [| split].
  - unfold getRemainingRequests. rewrite Hvalid. cbn. f_equal. lia.
  - unfold isAllowed. cbv zeta. rewrite Hvalid. cbn [length reset maxRequests].
    case_bool_decide; cbn; split; intros; (done || lia).
  - intros other Hne. unfold reset. cbn. by rewrite lookup_delete_ne.
Qed.

(** X5.  In every limiter a program can hold, the history kept for an
    identifier is never empty and never longer than [maxRequests]. *)
Theorem reachable_history_bounded (limit window : Z) rl :
  reachable limit window rl →
  maxRequests rl = limit ∧ windowMs rl = window
  ∧ ∀ identifier (history : list Z),
      requests rl !! identifier = Some history →
      history ≠ [] ∧ Z.of_nat (length history) <= limit.
Proof.
  induction 1 as [| identifier now rl _ (Hmax & Hwin & IH)
                  | identifier rl _ (Hmax & Hwin & IH)].
  - split; [done |]. split; [done |]. intros identifier history Hget.
    cbn in Hget. by rewrite lookup_empty in Hget.
  - unfold isAllowed. cbv zeta. case_bool_decide as Hfull; cbn [snd]; [done |].
    cbn. split; [done |]. split; [done |]. intros other history Hget.
    destruct (decide (identifier = other)) as [<- | Hne].
    + rewrite lookup_insert_eq in Hget. injection Hget as <-. split.
      * by destruct (validRequests rl identifier now).
      * rewrite length_app. cbn. lia.
    + rewrite lookup_insert_ne in Hget by done. by apply IH in Hget.
  - cbn. split; [done |]. split; [done |]. intros other history Hget.
    destruct (decide (identifier = other)) as [<- | Hne].
    + by rewrite lookup_delete_eq in Hget.
    + rewrite lookup_delete_ne in Hget by done. by apply IH in Hget.
Qed.

Lemma reachable_history_bounded_witness :
  let rl := (calls "a" [0; 1; 2; 3] (new 2 1000)).2 in
  requests rl !! "a" = Some [0; 1]
  ∧ [0; 1] ≠ [] ∧ Z.of_nat (length [0; 1]) <= 2.
Proof.
  intros rl.
  assert (reachable 2 1000 rl) as Hreach.
  { subst rl. cbn [calls].
    repeat match goal with
           | |- context [isAllowed ?i ?n ?r] =>
               let H := fresh in
               pose proof (reach_isAllowed 2 1000 i n r) as H;
               destruct (isAllowed i n r); cbn [snd] in H |- *
           end.
    auto using reach_new. }
  assert (requests rl !! "a" = Some [0; 1]) as Hget by (vm_compute; reflexivity).
  split; [exact Hget |].
  exact (proj2 (proj2 (reachable_history_bounded 2 1000 rl Hreach)) "a" [0; 1] Hget).
Defined.

End RateLimiterQuota.

(* ===================================================================== *)
(** * More about [PerformanceMonitor]                                     *)
(* ===================================================================== *)

Section PerformanceMonitorBuffer.
Import PerformanceMonitor.

Implicit Types (metrics : PerformanceMonitor.t) (metric : PerformanceMetrics).

(** X6.  The buffer is first-in first-out: below its capacity of 100
    [addMetric] appends the sample, and at capacity it drops the oldest
    sample and appends the new one. *)
Theorem addMetric_first_in_first_out metric metrics :
  reachable metrics →
  addMetric metric metrics
  = (if bool_decide (Z.of_nat (length metrics) < maxMetrics)
     then metrics else drop 1 metrics) ++ [metric].
Proof.
  intros Hreach. apply reachable_length in Hreach.
  case_bool_decide as Hroom.
  - by apply addMetric_below_capacity.
  - unfold addMetric, Js.slice, maxMetrics in *. cbv zeta.
    rewrite length_app. change (length [metric]) with 1%nat.
    replace (Z.of_nat (length metrics + 1) >? 100) with true
      by (symmetry; rewrite Z.gtb_ltb; apply Z.ltb_lt; lia).
    change (- (100) <? 0) with true. cbv iota.
    replace (Z.to_nat (Z.max (Z.of_nat (length metrics + 1) + - (100)) 0))
      with 1%nat by lia.
    rewrite drop_app_le by lia. reflexivity.
Qed.

Lemma addMetric_first_in_first_out_witness :
  let full := record_all (map sample ten_to_thousand) empty in
  addMetric (sample 7) full = drop 1 full ++ [sample 7].
Proof.
  intros full.
  apply (addMetric_first_in_first_out (sample 7) full).
  apply record_all_reachable, reach_empty.
Defined.

(** X7.  For a positive [limit], [getRecentMetrics] returns the last
    [limit] samples (all of them when there are fewer), oldest first. *)
Theorem getRecentMetrics_takes_the_newest (limit : Z) metrics :
  0 < limit →
  getRecentMetrics limit metrics
  = drop (length metrics - Z.to_nat limit) metrics
  ∧ length (getRecentMetrics limit metrics)
    = Nat.min (Z.to_nat limit) (length metrics)
  ∧ getRecentMetrics limit metrics `suffix_of` metrics.
Proof.
  intros Hpos.
  assert (getRecentMetrics limit metrics
          = drop (length metrics - Z.to_nat limit) metrics) as Heq.
  { unfold getRecentMetrics, Js.slice.
    replace (- limit <? 0) with true by (symmetry; apply Z.ltb_lt; lia).
    f_equal. lia. }
  split; [done |]. rewrite Heq. split; [rewrite length_drop; lia | apply suffix_drop].
Qed.

Lemma getRecentMetrics_takes_the_newest_witness :
  getRecentMetrics 2 (map sample [10; 20; 30]) = map sample [20; 30].
Proof.
  apply (getRecentMetrics_takes_the_newest 2 (map sample [10; 20; 30])).
  reflexivity.
Defined.

(** X8.  A negative [limit] is not a count of samples: [slice(-limit)]
    then has a positive start, so [getRecentMetrics] skips the [-limit]
    oldest samples and returns all the others, which leaves nothing
    exactly when the buffer holds no more than [-limit] samples. *)
Theorem getRecentMetrics_negative_limit (limit : Z) metrics :
  limit < 0 →
  getRecentMetrics limit metrics = drop (Z.to_nat (- limit)) metrics
  ∧ (getRecentMetrics limit metrics = [] ↔
     Z.of_nat (length metrics) <= - limit).
Proof.
  intros Hneg.
  assert (getRecentMetrics limit metrics = drop (Z.to_nat (- limit)) metrics) as Heq.
  { unfold getRecentMetrics, Js.slice.
    replace (- limit <? 0) with false by (symmetry; apply Z.ltb_ge; lia).
    destruct (Z_le_gt_dec (- limit) (Z.of_nat (length metrics))) as [Hin | Hout].
    - f_equal. lia.
    - rewrite !drop_ge by lia. reflexivity. }
  split; [done |]. rewrite Heq. split.
  - intros Hnil. apply (f_equal length) in Hnil.
    rewrite length_drop in Hnil. cbn in Hnil. lia.
  - intros Hfew. apply drop_ge. lia.
Qed.

Lemma getRecentMetrics_negative_limit_witness :
  getRecentMetrics (-1) (map sample [10; 20; 30]) = map sample [20; 30]
  ∧ getRecentMetrics (-3) (map sample [10; 20; 30]) = [].
Proof.
  split.
  - apply (getRecentMetrics_negative_limit (-1) (map sample [10; 20; 30])).
    reflexivity.
  - apply (getRecentMetrics_negative_limit (-3) (map sample [10; 20; 30])).
    + reflexivity.
    + cbn. lia.
Defined.

(** The percentiles of a monitor that holds samples are entries of the
    sorted response times, at [⌊95n/100⌋] and [⌊99n/100⌋]. *)
Lemma getStats_percentile_entries metrics :
  reachable metrics →
  metrics ≠ [] →
  let n := Z.of_nat (length metrics) in
  responseTimes metrics !! Z.to_nat (95 * n / 100)
  = Some (p95ResponseTime (getStats metrics))
  ∧ responseTimes metrics !! Z.to_nat (99 * n / 100)
    = Some (p99ResponseTime (getStats metrics)).
Proof.
  intros Hreach Hnonempty n. subst n.
  pose proof (reachable_length _ Hreach) as Hcap. unfold maxMetrics in Hcap.
  assert (0 < Z.of_nat (length metrics)) as Hpos
    by (destruct metrics; [done | cbn; lia]).
  unfold getStats.
  destruct (Z.eqb_spec (Z.of_nat (length metrics)) 0) as [Hz | _]; [lia |].
  cbn [p95ResponseTime p99ResponseTime].
  unfold p95Index, p99Index. rewrite responseTimes_length.
  destruct (floor_percent (length metrics)) as [H95 H99]; [lia |].
  rewrite H95, H99. unfold Js.index.
  assert (0 <= 95 * Z.of_nat (length metrics) / 100
          < Z.of_nat (length metrics)) as [H95lo H95hi].
  { split; [apply Z.div_pos; lia | apply Z.div_lt_upper_bound; lia]. }
  assert (0 <= 99 * Z.of_nat (length metrics) / 100
          < Z.of_nat (length metrics)) as [H99lo H99hi].
  { split; [apply Z.div_pos; lia | apply Z.div_lt_upper_bound; lia]. }
  rewrite (proj2 (Z.ltb_ge _ _) H95lo), (proj2 (Z.ltb_ge _ _) H99lo).
  destruct (lookup_lt_is_Some_2 (responseTimes metrics)
              (Z.to_nat (95 * Z.of_nat (length metrics) / 100))) as [v95 Hv95].
  { rewrite responseTimes_length. lia. }
  destruct (lookup_lt_is_Some_2 (responseTimes metrics)
              (Z.to_nat (99 * Z.of_nat (length metrics) / 100))) as [v99 Hv99].
  { rewrite responseTimes_length. lia. }
  by rewrite Hv95, Hv99, !or_zero_Some.
Qed.

Lemma Sorted_lookup_le (sorted : list Z) (i j : nat) (a b : Z) :
  Sorted Z.le sorted → (i ≤ j)%nat →
  sorted !! i = Some a → sorted !! j = Some b → a <= b.
Proof.
  intros Hsorted. apply Sorted_StronglySorted in Hsorted; [| apply _].
  revert i j. induction Hsorted as [| x l _ IH Hall]; intros i j Hij Hi Hj.
  - by rewrite lookup_nil in Hi.
  - destruct i as [| i], j as [| j]; cbn in Hi, Hj.
    + injection Hi as <-. injection Hj as <-. lia.
    + injection Hi as <-. rewrite Forall_forall in Hall.
      apply Hall. by apply list_elem_of_lookup_2 in Hj.
    + lia.
    + apply (IH i j); [lia | done | done].
Qed.

(** X9.  For a monitor that holds samples, [p95ResponseTime] and
    [p99ResponseTime] are response times that were recorded, and the
    first is not above the second. *)
Theorem percentiles_are_ordered_samples metrics :
  reachable metrics →
  metrics ≠ [] →
  p95ResponseTime (getStats metrics) <= p99ResponseTime (getStats metrics)
  ∧ p95ResponseTime (getStats metrics) ∈ map responseTime metrics
  ∧ p99ResponseTime (getStats metrics) ∈ map responseTime metrics.
Proof.
  intros Hreach Hnonempty.
  destruct (getStats_percentile_entries metrics Hreach Hnonempty) as [H95 H99].
  split; [| split].
  - eapply Sorted_lookup_le; [apply sort_ascending_Sorted | | exact H95 | exact H99].
    apply Z2Nat.inj_le; [apply Z.div_pos; lia | apply Z.div_pos; lia |].
    apply Z.div_le_mono; lia.
  - apply list_elem_of_lookup_2 in H95.
    unfold responseTimes in H95. by rewrite sort_ascending_Permutation in H95.
  - apply list_elem_of_lookup_2 in H99.
    unfold responseTimes in H99. by rewrite sort_ascending_Permutation in H99.
Qed.

Lemma percentiles_are_ordered_samples_witness :
  let metrics := record_all (map sample [30; 10; 20]) empty in
  p95ResponseTime (getStats metrics) <= p99ResponseTime (getStats metrics).
Proof.
  intros metrics.
  apply (percentiles_are_ordered_samples metrics).
  - apply record_all_reachable, reach_empty.
  - discriminate.
Defined.

(** In binary64, [(n / n) * 100] is 100 and [(0 / n) * 100] is 0 for the
    sample counts the buffer can hold. *)
Lemma hit_rate_table :
  Forall (λ n : nat,
            PrimFloat.mul
              (PrimFloat.div (Js.number (Z.of_nat n)) (Js.number (Z.of_nat n)))
              (Js.number 100) = 100%float
            ∧ PrimFloat.mul
                (PrimFloat.div (Js.number 0) (Js.number (Z.of_nat n)))
                (Js.number 100) = 0%float)
         (seq 1 100).
Proof.
  cbn [seq].
  repeat (apply Forall_cons; split; [split; vm_compute; reflexivity |]).
  by apply Forall_nil.
Qed.

(** X10.  For a monitor that holds samples, [cacheHitRate] is exactly 100
    when every sample is a hit and exactly 0 when none is. *)
Theorem cacheHitRate_extremes metrics :
  reachable metrics →
  metrics ≠ [] →
  (Forall (λ m, cacheStatus m = hit) metrics →
   cacheHitRate (getStats metrics) = 100%float)
  ∧ (Forall (λ m, cacheStatus m ≠ hit) metrics →
     cacheHitRate (getStats metrics) = 0%float).
Proof.
  intros Hreach Hnonempty.
  pose proof (reachable_length _ Hreach) as Hcap. unfold maxMetrics in Hcap.
  assert (0 < length metrics)%nat as Hpos
    by (destruct metrics; [done | cbn; lia]).
  pose proof hit_rate_table as Htable. rewrite Forall_forall in Htable.
  destruct (Htable (length metrics)) as [Hall Hnone]; [apply elem_of_seq; lia |].
  unfold getStats.
  destruct (Z.eqb_spec (Z.of_nat (length metrics)) 0) as [Hz | _]; [lia |].
  cbn [cacheHitRate]. unfold cacheHits, PerformanceMonitor.t in *.
  split; intros Hstatus.
  - replace (filter (λ m, is_hit (cacheStatus m) = true) metrics) with metrics; [done |].
    clear -Hstatus. induction Hstatus as [| m l Hm _ IH]; [done |].
    rewrite filter_cons. rewrite decide_True by (by rewrite Hm). by rewrite <- IH.
  - replace (filter (λ m, is_hit (cacheStatus m) = true) metrics) with (@nil PerformanceMetrics);
      [done |].
    clear -Hstatus. induction Hstatus as [| m l Hm _ IH]; [done |].
    rewrite filter_cons. rewrite decide_False; [done |].
    by destruct (cacheStatus m).
Qed.

Lemma cacheHitRate_extremes_witness :
  cacheHitRate (getStats (record_all (map sample [30; 10; 20]) empty)) = 0%float.
Proof.
  apply (cacheHitRate_extremes (record_all (map sample [30; 10; 20]) empty)).
  - apply record_all_reachable, reach_empty.
  - discriminate.
  - repeat constructor; discriminate.
Defined.

End PerformanceMonitorBuffer.

(* ===================================================================== *)
(** * The helpers of lib/utils.ts                                         *)
(* ===================================================================== *)

Section UtilsFacts.
Import Utils.

Lemma or_string_nonempty (a : option string) (b : string) :
  b ≠ "" → or_string a b ≠ "".
Proof.
  intros Hb. unfold or_string. destruct a as [text |]; [| done].
  destruct (String.eqb_spec text ""); done.
Qed.

Lemma append_cons (c : ascii) (s1 s2 : string) :
  String c s1 +:+ s2 = String c (s1 +:+ s2).
Proof. reflexivity. Qed.

Lemma append_empty (s : string) : "" +:+ s = s.
Proof. reflexivity. Qed.

Lemma before_comma_split (s : string) :
  s = before_comma s ∨ ∃ rest, s = before_comma s +:+ "," +:+ rest.
Proof.
  induction s as [| c s IH]; cbn; [by left |].
  destruct (Ascii.eqb_spec c ","%char) as [-> | Hne].
  - right. by exists s.
  - destruct IH as [IH | [rest IH]].
    + left. by rewrite <- IH.
    + right. exists rest. rewrite append_cons. by rewrite <- IH.
Qed.

Lemma before_comma_has_no_comma (s pre post : string) :
  before_comma s ≠ pre +:+ "," +:+ post.
Proof.
  revert pre. induction s as [| c s IH]; intros pre; cbn.
  - destruct pre; [rewrite append_empty | rewrite append_cons]; done.
  - destruct (Ascii.eqb_spec c ","%char) as [-> | Hne].
    + destruct pre; [rewrite append_empty | rewrite append_cons]; done.
    + destruct pre as [| d pre]; [rewrite append_empty | rewrite append_cons].
      * rewrite append_cons. intros [= -> _]. done.
      * intros [= _ Heq]. by apply IH in Heq.
Qed.

(** X11.  [getClientIP] never returns the empty string; and when the
    [x-forwarded-for] header begins with a non-empty entry, it returns
    exactly that entry: the header's text up to its first comma. *)
Theorem getClientIP_first_forwarded_entry (headers : gmap string string) :
  getClientIP headers ≠ ""
  ∧ ∀ forwarded,
      headers !! "x-forwarded-for" = Some forwarded →
      before_comma forwarded ≠ "" →
      (forwarded = getClientIP headers
       ∨ ∃ rest, forwarded = getClientIP headers +:+ "," +:+ rest)
      ∧ ∀ pre post, getClientIP headers ≠ pre +:+ "," +:+ post.
Proof.
  split.
  - unfold getClientIP. repeat apply or_string_nonempty. done.
  - intros forwarded Hget Hfirst.
    assert (getClientIP headers = before_comma forwarded) as ->.
    { unfold getClientIP. rewrite Hget. cbn.
      by destruct (String.eqb_spec (before_comma forwarded) ""). }
    split; [apply before_comma_split | apply before_comma_has_no_comma].
Qed.

Lemma getClientIP_first_forwarded_entry_witness :
  let headers : gmap string string :=
    {[ "x-forwarded-for" := "203.0.113.7, 10.0.0.1" ]} in
  "203.0.113.7, 10.0.0.1" = getClientIP headers
  ∨ ∃ rest, "203.0.113.7, 10.0.0.1" = getClientIP headers +:+ "," +:+ rest.
Proof.
  intros headers.
  apply (proj2 (getClientIP_first_forwarded_entry headers) "203.0.113.7, 10.0.0.1").
  - vm_compute. reflexivity.
  - vm_compute. discriminate.
Defined.

(** X12.  [generateCacheKey] does not tell its two context fields apart:
    a region alone and a user id alone with the same text give the same
    key. *)
Theorem generateCacheKey_confuses_region_and_user (baseKey text : string) :
  generateCacheKey baseKey
    (Some {| KeyContext.region := Some text; KeyContext.userId := None |})
  = generateCacheKey baseKey
      (Some {| KeyContext.region := None; KeyContext.userId := Some text |}).
Proof.
  unfold generateCacheKey. cbn.
  by destruct (String.eqb text "").
Qed.

(** X13.  When [createAPIResponse] is not given a [success] flag, the
    response it builds is a failure exactly when it carries an [error]
    text, which is exactly when a non-empty error was given. *)
Theorem createAPIResponse_success_matches_error
    {T : Type} `{ToBoolean T} (now : Z) (data : option T)
    (options : option ResponseOptions.t) :
  options ≫= ResponseOptions.success = None →
  let response := createAPIResponse now data options in
  (APIResponse.success response = false ↔ is_Some (APIResponse.error response))
  ∧ (is_Some (APIResponse.error response) ↔
     ∃ text, options ≫= ResponseOptions.error = Some text ∧ text ≠ "").
Proof.
  intros Hflag response. subst response. unfold createAPIResponse. cbn.
  rewrite Hflag.
  destruct (options ≫= ResponseOptions.error) as [text |]; cbn.
  - destruct (String.eqb_spec text "") as [-> | Hne]; cbn.
    + split; [split; [done | by intros [? ?]] |].
      split; [by intros [? ?] | by intros (? & [= <-] & ?)].
    + split; [split; [by eexists | done] |].
      split; [intros _; by exists text | by eexists].
  - split; [split; [done | by intros [? ?]] |].
    split; [by intros [? ?] | by intros (? & ? & ?)].
Qed.

Lemma createAPIResponse_success_matches_error_witness :
  let options :=
    Some {| ResponseOptions.success := None;
            ResponseOptions.error := Some "Rate limit exceeded";
            ResponseOptions.message := None;
            ResponseOptions.cacheStatus := None;
            ResponseOptions.region := None;
            ResponseOptions.responseTime := None |} in
  APIResponse.success (createAPIResponse 0 (@None Js.value) options) = false.
Proof.
  intros options.
  apply (createAPIResponse_success_matches_error 0 (@None Js.value) options eq_refl).
  by eexists.
Defined.

End UtilsFacts.

(* ===================================================================== *)
(** * More about [db] and [EdgeCache]                                     *)
(* ===================================================================== *)

Section EdgeCacheOperations.
Import Runtime EdgeCache.

Implicit Types (w : World) (key pattern : string) (ttl : Z).

#[local] Ltac run_monad :=
  unfold mbind, M_bind, mret, M_ret, try_catch, console, Date_now,
    memory_get, memory_set, memory_delete, memory_clear, memory_update in *.

#[local] Ltac run_kv :=
  unfold Database.get, Database.set, Database.delete, Database.list,
    kv_get, kv_set, kv_setex, kv_del, kv_keys, kv_call in *.

(** ** [db] *)


(** [db.set] has no business with the local tier, however it ends. *)
Lemma db_set_keeps_memory key data (ttlSeconds : option Z) w r w1 :
  Database.set key data ttlSeconds w = (r, w1) →
  memoryCache w1 = memoryCache w.
Proof.
  unfold Database.set, Date_toISOString. run_monad.
  destruct ttlSeconds as [seconds |]; [destruct (Js.truthy_num seconds) |].
  - case_bool_decide; [| by intros [= _ <-]].
    unfold kv_setex. intros Hcall. by apply kv_call_inv in Hcall as (Hmem & _).
  - unfold kv_set. intros Hcall. by apply kv_call_inv in Hcall as (Hmem & _).
  - unfold kv_set. intros Hcall. by apply kv_call_inv in Hcall as (Hmem & _).
Qed.

(** X14.  Round trip through [db]: when neither call fails and the
    expiry instant of the write is one a [Date] can hold, [db.get] after
    [db.set(key, data, ttl)] returns the record of that write, with the
    data unchanged, until the TTL has run out; with a TTL of 0 or no TTL
    it returns it at any later time.  When the expiry instant is outside
    the range of [Date], [db.set] throws a [RangeError] before it calls
    the store. *)
Theorem db_set_get_round_trip key data (ttlSeconds : option Z) w :
  (∀ later : World,
     fails (next_step w).1 = false →
     (∀ seconds, ttlSeconds = Some seconds → seconds ≠ 0 →
        - MAX_DATE <= clock w + seconds * 1000 <= MAX_DATE) →
     kv later = kv (Database.set key data ttlSeconds w).2 →
     fails (next_step later).1 = false →
     (∀ seconds, ttlSeconds = Some seconds → seconds ≠ 0 →
        clock later + Z.of_N (latency (next_step later).1)
        < clock w + Z.of_N (latency (next_step w).1) + seconds * 1000) →
     ∃ record,
       (Database.get key later).1 = Ok (Some record)
       ∧ JSONData.data record = data
       ∧ JSONData.id record = key
       ∧ JSONData.version record = 1
       ∧ JSONData.timestamp record = clock w)
  ∧ (∀ seconds,
       ttlSeconds = Some seconds → seconds ≠ 0 →
       ¬ (- MAX_DATE <= clock w + seconds * 1000 <= MAX_DATE) →
       Database.set key data ttlSeconds w
       = (Throw (RangeError "Invalid time value"), w)).
Proof.
  split.
  - intros later Hset Hrange Hkv Hget Hfresh.
    unfold Database.get, kv_get, kv_call.
    destruct (next_step later) as [step2 rest2]. cbn in Hget, Hfresh. rewrite Hget.
    unfold visible. rewrite Hkv. clear Hkv.
    destruct ttlSeconds as [seconds |];
      [destruct (Z.eqb_spec seconds 0) as [-> | Hne] |].
    + unfold Database.set, kv_set, kv_call. run_monad. cbn.
      destruct (next_step w) as [step1 rest1]. cbn in Hset. rewrite Hset. cbn.
      rewrite lookup_insert_eq. cbn. by eexists.
    + unfold Database.set, Date_toISOString, kv_setex, kv_call, Js.truthy_num.
      run_monad. rewrite (proj2 (Z.eqb_neq seconds 0) Hne). cbn [negb].
      rewrite bool_decide_eq_true_2 by (by apply Hrange). cbv beta iota.
      destruct (next_step w) as [step1 rest1]. cbn in Hset, Hfresh. rewrite Hset. cbn.
      rewrite lookup_insert_eq. unfold live. cbn.
      rewrite bool_decide_eq_true_2 by (by apply Hfresh). by eexists.
    + unfold Database.set, kv_set, kv_call. run_monad. cbn.
      destruct (next_step w) as [step1 rest1]. cbn in Hset. rewrite Hset. cbn.
      rewrite lookup_insert_eq. cbn. by eexists.
  - intros seconds -> Hne Hout.
    unfold Database.set, Date_toISOString, Js.truthy_num. run_monad.
    rewrite (proj2 (Z.eqb_neq seconds 0) Hne). cbn [negb].
    by rewrite bool_decide_eq_false_2.
Qed.

Lemma db_set_get_round_trip_witness :
  (∃ record,
     (Database.get "k"
        (elapse 59999 (Database.set "k" (Js.Num 7) (Some 60) Examples.idle).2)).1
     = Ok (Some record)
     ∧ JSONData.data record = Js.Num 7)
  ∧ Database.set "k" (Js.Num 7) (Some 10000000000000) Examples.idle
    = (Throw (RangeError "Invalid time value"), Examples.idle).
Proof.
  split.
  - destruct (proj1 (db_set_get_round_trip "k" (Js.Num 7) (Some 60) Examples.idle)
                (elapse 59999 (Database.set "k" (Js.Num 7) (Some 60) Examples.idle).2))
      as (record & Hget & Hdata & _).
    + reflexivity.
    + intros seconds [= <-] _. vm_compute. split; discriminate.
    + reflexivity.
    + reflexivity.
    + intros seconds [= <-] _. vm_compute. reflexivity.
    + by exists record.
  - apply (proj2 (db_set_get_round_trip "k" (Js.Num 7) (Some 10000000000000)
                    Examples.idle) 10000000000000).
    + reflexivity.
    + discriminate.
    + vm_compute. intros [_ Hle]. by apply Hle.
Defined.

(** ** No operation of the cache throws *)

Lemma check_kv_never_throws key w : ∃ hit, (check_kv key w).1 = Ok hit.
Proof.
  unfold check_kv. run_monad.
  destruct (Database.get _ w) as [[[jd |] | err] w1]; cbn; [| by eexists ..].
  destruct (Js.truthy (JSONData.data jd)); by eexists.
Qed.

Lemma fetch_fresh_never_throws key fetcher ttl w :
  ∃ v, (fetch_fresh key fetcher ttl w).1 = Ok v.
Proof.
  unfold fetch_fresh. destruct fetcher as [f |]; run_monad; [| by eexists].
  destruct (f _) as [[freshData | err] w1]; [| by eexists].
  pose proof (set_never_throws key freshData ttl w1) as Hset.
  destruct (set key freshData ttl w1) as [[[] | err] w2]; [by eexists | done].
Qed.

Lemma get_never_throws key fetcher ttl w : ∃ v, (get key fetcher ttl w).1 = Ok v.
Proof.
  assert (∃ v, (after_memory key fetcher ttl w).1 = Ok v) as Hafter.
  { unfold after_memory. unfold mbind, M_bind.
    destruct (check_kv_never_throws key w) as [hit Hhit].
    destruct (check_kv key w) as [[[v |] | err] w1]; cbn in Hhit; [| | done].
    - by eexists.
    - apply fetch_fresh_never_throws. }
  unfold get. run_monad.
  destruct (memoryCache w !! (CACHE_PREFIX +:+ key)) as [e |]; [| done].
  case_bool_decide; [by eexists | done].
Qed.

Lemma invalidate_never_throws key w : (invalidate key w).1 = Ok tt.
Proof.
  unfold invalidate. run_monad.
  by destruct (Database.delete _ w) as [[[] | err] w1].
Qed.

Lemma invalidatePattern_never_throws pattern w : (invalidatePattern pattern w).1 = Ok tt.
Proof.
  unfold invalidatePattern.
  set (body := λ key : string, Database.delete key;; memory_delete key).
  unfold try_catch, mbind, M_bind.
  destruct (Database.list _ w) as [[keys | err] w1]; [| done].
  by destruct (for_of keys body w1) as [[[] | err] w2].
Qed.

Lemma clear_never_throws w : (clear w).1 = Ok tt.
Proof.
  unfold clear, try_catch. by destruct (clear_try w) as [[[] | err] w1].
Qed.

(** X15.  No operation of the cache throws: a failure of the durable
    store or of the fetcher is caught inside [get], [set], [invalidate],
    [invalidatePattern] and [clear], each of which completes normally in
    every world. *)
Theorem edge_cache_never_throws w :
  (∀ key fetcher ttl, ∃ v, (get key fetcher ttl w).1 = Ok v)
  ∧ (∀ key data ttl, (set key data ttl w).1 = Ok tt)
  ∧ (∀ key, (invalidate key w).1 = Ok tt)
  ∧ (∀ pattern, (invalidatePattern pattern w).1 = Ok tt)
  ∧ (clear w).1 = Ok tt.
Proof.
  split; [intros; apply get_never_throws |].
  split; [intros; apply set_never_throws |].
  split; [intros; apply invalidate_never_throws |].
  split; [intros; apply invalidatePattern_never_throws | apply clear_never_throws].
Qed.

(** ** Misses *)

(** When the durable store serves nothing under the key from now on, the
    path after the local tier, without a fetcher, answers [null] and
    leaves both tiers as they were, whether or not the durable read
    fails. *)
Lemma after_memory_nothing_durable key ttl w :
  (∀ now, clock w <= now → visible now (kv w) (CACHE_PREFIX +:+ key) = None) →
  (after_memory key None ttl w).1 = Ok Js.Null
  ∧ memoryCache (after_memory key None ttl w).2 = memoryCache w
  ∧ kv (after_memory key None ttl w).2 = kv w.
Proof.
  intros Hgone. unfold after_memory, check_kv, fetch_fresh. run_monad. run_kv.
  destruct (next_step w) as [step rest]. destruct (fails step); cbn; [done |].
  rewrite Hgone by lia. done.
Qed.

(** X16.  A [get] without a fetcher for a key that neither tier holds
    returns [null] and leaves both tiers as they were, in every world:
    also when the durable read fails. *)
Theorem get_unset_key_returns_null key ttl w :
  memoryCache w !! (CACHE_PREFIX +:+ key) = None →
  kv w !! (CACHE_PREFIX +:+ key) = None →
  (get key None ttl w).1 = Ok Js.Null
  ∧ memoryCache (get key None ttl w).2 = memoryCache w
  ∧ kv (get key None ttl w).2 = kv w.
Proof.
  intros Hmem Hkv.
  rewrite get_memory_miss by (intros e He; congruence).
  apply after_memory_nothing_durable.
  intros now _. unfold visible. by rewrite Hkv.
Qed.

Lemma get_unset_key_returns_null_witness :
  (get "k" None 60 (Examples.failing_next Examples.idle)).1 = Ok Js.Null.
Proof.
  apply (get_unset_key_returns_null "k" 60 (Examples.failing_next Examples.idle));
    reflexivity.
Defined.



(** X18.  No negative caching: when the local tier does not answer, the
    durable tier misses and the fetcher throws, [get] returns [null],
    logs the error, and stores nothing: both tiers are as the fetcher
    left them. *)
Theorem fetcher_failure_is_not_cached key ttl w w1 (f : Fetcher) err w2 :
  memory_misses w key →
  check_kv key w = (Ok None, w1) →
  f (emit (Console ("[CACHE] Miss: " +:+ key +:+ ", fetching fresh")) w1)
    = (Throw err, w2) →
  get key (Some f) ttl w
  = (Ok Js.Null, emit (Console ("[CACHE] Fetcher error for " +:+ key +:+ ":")) w2)
  ∧ memoryCache (get key (Some f) ttl w).2 = memoryCache w2
  ∧ kv (get key (Some f) ttl w).2 = kv w2.
Proof.
  intros Hmiss Hkv Hfetch.
  assert (get key (Some f) ttl w
          = (Ok Js.Null,
             emit (Console ("[CACHE] Fetcher error for " +:+ key +:+ ":")) w2)) as ->.
  { rewrite get_memory_miss by done.
    unfold after_memory. unfold mbind at 1, M_bind at 1. rewrite Hkv.
    unfold fetch_fresh. run_monad. by rewrite Hfetch. }
  done.
Qed.

Lemma fetcher_failure_is_not_cached_witness :
  let failing : Fetcher := λ w, (Throw (FetcherError "upstream is down"), w) in
  get "k" (Some failing) 60 Examples.idle
  = (Ok Js.Null,
     emit (Console "[CACHE] Fetcher error for k:")
       (emit (Console "[CACHE] Miss: k, fetching fresh")
          (check_kv "k" Examples.idle).2)).
Proof.
  intros failing.
  refine (proj1 (fetcher_failure_is_not_cached "k" 60 Examples.idle
                   (check_kv "k" Examples.idle).2 failing
                   (FetcherError "upstream is down") _
                   (idle_memory_misses "k") _ _)).
  - vm_compute. reflexivity.
  - reflexivity.
Defined.

(** ** [set] and [invalidate] *)

(** X19.  A failed durable write puts nothing in the local tier: [set]
    logs the error, completes normally, and leaves the local tier as it
    was. *)
Theorem set_failure_changes_nothing key data ttl w w1 err :
  Database.set (CACHE_PREFIX +:+ key) data (Some ttl) w = (Throw err, w1) →
  set key data ttl w
  = (Ok tt, emit (Console ("[CACHE] Set error for " +:+ key +:+ ":")) w1)
  ∧ memoryCache (set key data ttl w).2 = memoryCache w.
Proof.
  intros Hdb. rewrite (set_after_failed_write _ _ _ _ _ _ Hdb).
  split; [done |]. cbn. by apply db_set_keeps_memory in Hdb.
Qed.

Lemma set_failure_changes_nothing_witness :
  memoryCache (set "k" (Js.Str "v") 60 (Examples.failing_next Examples.idle)).2
  = memoryCache (Examples.failing_next Examples.idle).
Proof.
  refine (proj2 (set_failure_changes_nothing "k" (Js.Str "v") 60
                   (Examples.failing_next Examples.idle)
                   (Database.set "cache:k" (Js.Str "v") (Some 60)
                      (Examples.failing_next Examples.idle)).2
                   (StoreError (KvSetex "cache:k" 60)) _)).
  vm_compute. reflexivity.
Defined.

Lemma cache_key_inj (a b : string) :
  CACHE_PREFIX +:+ a = CACHE_PREFIX +:+ b → a = b.
Proof. apply (inj (String.app CACHE_PREFIX)). Qed.

(** X20.  [set] and [invalidate] touch only their own key: the entries
    of every other key stay as they were in both tiers, whether the
    durable call succeeds or fails. *)
Theorem set_and_invalidate_touch_only_their_key key other data ttl w :
  other ≠ key →
  (memoryCache (set key data ttl w).2 !! (CACHE_PREFIX +:+ other)
   = memoryCache w !! (CACHE_PREFIX +:+ other)
   ∧ kv (set key data ttl w).2 !! (CACHE_PREFIX +:+ other)
     = kv w !! (CACHE_PREFIX +:+ other))
  ∧ (memoryCache (invalidate key w).2 !! (CACHE_PREFIX +:+ other)
     = memoryCache w !! (CACHE_PREFIX +:+ other)
     ∧ kv (invalidate key w).2 !! (CACHE_PREFIX +:+ other)
       = kv w !! (CACHE_PREFIX +:+ other)).
Proof.
  intros Hother.
  assert (CACHE_PREFIX +:+ key ≠ CACHE_PREFIX +:+ other) as Hne
    by (intros Heq; apply cache_key_inj in Heq; done).
  split.
  - unfold set, Database.set, Date_toISOString. run_monad.
    unfold kv_setex, kv_set, kv_call.
    destruct (Js.truthy_num ttl); [case_bool_decide; [| done] |]; cbv beta iota;
      destruct (next_step w) as [step rest]; destruct (fails step); cbn;
      rewrite ?lookup_insert_ne by done; done.
  - unfold invalidate, Database.delete. run_monad. unfold kv_del, kv_call.
    cbv beta. destruct (next_step w) as [step rest].
    destruct (fails step); cbn; rewrite ?lookup_delete_ne by done; done.
Qed.

Lemma set_and_invalidate_touch_only_their_key_witness :
  let w := (set "a" (Js.Num 1) 60 Examples.idle).2 in
  memoryCache (invalidate "b" w).2 !! (CACHE_PREFIX +:+ "a")
  = memoryCache w !! (CACHE_PREFIX +:+ "a").
Proof.
  intros w.
  apply (set_and_invalidate_touch_only_their_key "b" "a" Js.Null 0 w).
  discriminate.
Defined.

(** X21.  When its durable delete succeeds, [invalidate] removes the key
    from both tiers, and a [get] of the key without a fetcher returns
    [null] from then on. *)
Theorem invalidate_removes_the_key key w w1 :
  Database.delete (CACHE_PREFIX +:+ key) w = (Ok tt, w1) →
  let w' := (invalidate key w).2 in
  memoryCache w' !! (CACHE_PREFIX +:+ key) = None
  ∧ kv w' !! (CACHE_PREFIX +:+ key) = None
  ∧ ∀ (elapsed : Z) ttl, (get key None ttl (elapse elapsed w')).1 = Ok Js.Null.
Proof.
  intros Hdel w'. subst w'.
  assert (memoryCache (invalidate key w).2 !! (CACHE_PREFIX +:+ key) = None
          ∧ kv (invalidate key w).2 !! (CACHE_PREFIX +:+ key) = None) as [Hmem Hkv].
  { unfold invalidate. run_monad. rewrite Hdel. cbn.
    apply db_delete_inv in Hdel as (_ & _ & _ & Hgone & _).
    rewrite (Hgone eq_refl), !lookup_delete_eq. done. }
  split; [done |]. split; [done |]. intros elapsed ttl.
  rewrite get_memory_miss.
  - apply after_memory_nothing_durable. intros now _.
    unfold visible, elapse. cbn. by rewrite Hkv.
  - intros e. unfold elapse. cbn. by rewrite Hmem.
Qed.

Lemma invalidate_removes_the_key_witness :
  let w := (set "k" (Js.Str "v") 60 Examples.idle).2 in
  (get "k" None 60 (elapse 0 (invalidate "k" w).2)).1 = Ok Js.Null.
Proof.
  intros w.
  refine (proj2 (proj2 (invalidate_removes_the_key "k" w
                          (Database.delete "cache:k" w).2 _)) 0 60).
  vm_compute. reflexivity.
Defined.

(** X22.  [invalidate] is idempotent on what the tiers hold: once an
    [invalidate(k)] has succeeded, a second one changes the contents of
    neither tier, whether its own durable call succeeds or fails. *)
Theorem invalidate_twice_is_invalidate_once key w w1 :
  Database.delete (CACHE_PREFIX +:+ key) w = (Ok tt, w1) →
  let once := (invalidate key w).2 in
  (invalidate key once).1 = Ok tt
  ∧ memoryCache (invalidate key once).2 = memoryCache once
  ∧ kv (invalidate key once).2 = kv once.
Proof.
  intros Hdel once.
  assert (memoryCache once !! (CACHE_PREFIX +:+ key) = None
          ∧ kv once !! (CACHE_PREFIX +:+ key) = None) as [Hmem Hkv].
  { subst once. unfold invalidate. run_monad. rewrite Hdel. cbn.
    apply db_delete_inv in Hdel as (_ & _ & _ & Hgone & _).
    rewrite (Hgone eq_refl), !lookup_delete_eq. done. }
  clearbody once. clear Hdel.
  unfold invalidate, Database.delete. run_monad. unfold kv_del, kv_call.
  cbv beta. destruct (next_step once) as [step rest].
  destruct (fails step); cbn; [done |].
  by rewrite !delete_id.
Qed.

Lemma invalidate_twice_is_invalidate_once_witness :
  let once := (invalidate "k" (set "k" (Js.Str "v") 60 Examples.idle).2).2 in
  kv (invalidate "k" once).2 = kv once.
Proof.
  intros once.
  refine (proj2 (proj2 (invalidate_twice_is_invalidate_once "k"
                          (set "k" (Js.Str "v") 60 Examples.idle).2
                          (Database.delete "cache:k"
                             (set "k" (Js.Str "v") 60 Examples.idle).2).2 _))).
  vm_compute. reflexivity.
Defined.

(** X23.  When its durable delete fails, [invalidate] reports nothing to
    its caller and leaves the local entry in place: until that entry
    expires, [get] goes on returning the value that was to be
    invalidated. *)
Theorem failed_invalidate_leaves_stale_value key w w1 err e (elapsed : Z) fetcher ttl :
  Database.delete (CACHE_PREFIX +:+ key) w = (Throw err, w1) →
  memoryCache w !! (CACHE_PREFIX +:+ key) = Some e →
  0 <= elapsed →
  clock w1 + elapsed < MemoryEntry.expires e →
  let w' := elapse elapsed (invalidate key w).2 in
  (invalidate key w).1 = Ok tt
  ∧ get key fetcher ttl w'
    = (Ok (MemoryEntry.data e), emit (Console ("[CACHE] Memory hit: " +:+ key)) w').
Proof.
  intros Hdel Hmem Hpos Hlive w'. subst w'.
  split; [apply invalidate_never_throws |].
  unfold invalidate. run_monad. rewrite Hdel. cbn [snd].
  apply db_delete_inv in Hdel as (Hmem1 & _).
  apply get_memory_hit.
  - unfold elapse, emit. cbn. by rewrite Hmem1.
  - unfold elapse, emit. cbn. done.
Qed.

Lemma failed_invalidate_leaves_stale_value_witness :
  let w := Examples.failing_next (set "k" (Js.Str "v") 60 Examples.idle).2 in
  let w' := elapse 100 (invalidate "k" w).2 in
  get "k" None 60 w' = (Ok (Js.Str "v"), emit (Console "[CACHE] Memory hit: k") w').
Proof.
  intros w w'.
  refine (proj2 (failed_invalidate_leaves_stale_value "k" w
                   (Database.delete "cache:k" w).2
                   (StoreError (KvDel "cache:k"))
                   {| MemoryEntry.data := Js.Str "v";
                      MemoryEntry.expires := 1700000010000 |}
                   100 None 60 _ _ _ _)).
  - vm_compute. reflexivity.
  - vm_compute. reflexivity.
  - lia.
  - vm_compute. reflexivity.
Defined.

(** ** The local tier as an accelerator *)



(** Step 2 of [get] does not depend on what the local tier holds. *)
Lemma check_kv_whatever_the_memory key w (m : gmap string MemoryEntry.t) :
  (check_kv key {| memoryCache := m; kv := kv w; clock := clock w;
                   schedule := schedule w; trace := trace w |}).1
  = (check_kv key w).1.
Proof.
  unfold check_kv. run_monad. run_kv. unfold next_step. cbn.
  destruct (schedule w) as [| step rest]; cbn.
  - destruct (visible _ _ _) as [jd |]; cbn; [| done].
    by destruct (Js.truthy (JSONData.data jd)).
  - destruct (fails step); cbn; [done |].
    destruct (visible _ _ _) as [jd |]; cbn; [| done].
    by destruct (Js.truthy (JSONData.data jd)).
Qed.

(** X25.  The periodic sweep removes exactly the entries whose [expires]
    is not in the future, and [get] does not depend on it: without a
    fetcher it returns the same value whether or not the sweep has just
    run. *)
Theorem cleanupMemory_is_transparent key ttl w :
  (∀ cacheKey e,
     memoryCache (cleanupMemory w).2 !! cacheKey = Some e ↔
     memoryCache w !! cacheKey = Some e ∧ clock w < MemoryEntry.expires e)
  ∧ (get key None ttl (cleanupMemory w).2).1 = (get key None ttl w).1.
Proof.
  split; [intros cacheKey e; apply cleanupMemory_keeps_live |].
  pose proof (cleanupMemory_keeps_live w (CACHE_PREFIX +:+ key)) as Hkept.
  unfold cleanupMemory in *. run_monad. cbn [snd] in *.
  set (swept := filter _ (memoryCache w)) in *.
  destruct (memoryCache w !! (CACHE_PREFIX +:+ key)) as [e |] eqn:Hmem.
  - destruct (decide (clock w < MemoryEntry.expires e)) as [Hlive | Hdead].
    + rewrite (get_memory_hit key None ttl _ e);
        [| cbn; by apply Hkept | done].
      by rewrite (get_memory_hit key None ttl w e).
    + rewrite !get_memory_miss.
      * unfold after_memory. unfold mbind, M_bind.
        pose proof (check_kv_whatever_the_memory key w swept) as Hsame.
        destruct (check_kv key w) as [[[v |] | err] wa],
                 (check_kv key _) as [[[v' |] | err'] wb];
          cbn in Hsame; try discriminate; cbn; congruence.
      * intros e' He'. rewrite Hmem in He'. injection He' as <-. lia.
      * intros e' He'. cbn in He'. apply Hkept in He' as [He' Hlive].
        injection He' as <-. cbn. lia.
  - rewrite !get_memory_miss.
    + unfold after_memory. unfold mbind, M_bind.
      pose proof (check_kv_whatever_the_memory key w swept) as Hsame.
      destruct (check_kv key w) as [[[v |] | err] wa],
               (check_kv key _) as [[[v' |] | err'] wb];
        cbn in Hsame; try discriminate; cbn; congruence.
    + intros e' He'. congruence.
    + intros e' He'. cbn in He'. apply Hkept in He' as [He' _]. discriminate.
Qed.

(** ** [invalidatePattern] *)

(** The loop of [invalidatePattern]: it touches the listed keys only, and
    when it completes every one of them is gone from both tiers. *)
Lemma for_of_delete_both_inv (keys : list string) w r w' :
  for_of keys (λ key, Database.delete key;; memory_delete key) w = (r, w') →
  (∀ k, k ∉ keys →
        kv w' !! k = kv w !! k ∧ memoryCache w' !! k = memoryCache w !! k)
  ∧ (r = Ok tt → ∀ k, k ∈ keys →
        kv w' !! k = None ∧ memoryCache w' !! k = None)
  ∧ (Forall (λ s, fails s = false) (schedule w) → r = Ok tt).
Proof.
  revert w. induction keys as [| key keys IH]; intros w.
  - cbn. intros [= <- <-]. split; [done |]. split; [| done].
    intros _ k Hk. by apply elem_of_nil in Hk.
  - cbn [for_of]. unfold mbind at 1, M_bind at 1.
    destruct ((Database.delete key;; memory_delete key) w)
      as [[[] | err] wa] eqn:Hbody.
    + unfold mbind, M_bind in Hbody.
      destruct (Database.delete key w) as [[[] | err] w1] eqn:Hdel; [| done].
      unfold memory_delete, memory_update in Hbody. injection Hbody as <-.
      apply db_delete_inv in Hdel as (Hmem1 & _ & Hsched1 & Hkv1 & _ & _).
      specialize (Hkv1 eq_refl). intros Hrest.
      apply IH in Hrest as (Hframe & Hgone & Hok). cbn in Hframe, Hgone, Hok.
      split; [| split].
      * intros k Hk. apply not_elem_of_cons in Hk as [Hne Hk].
        destruct (Hframe k Hk) as [-> ->].
        rewrite Hkv1, Hmem1, !lookup_delete_ne by done. done.
      * intros Hr k Hk.
        destruct (decide (k ∈ keys)) as [Hin | Hout]; [by apply Hgone |].
        apply elem_of_cons in Hk as [-> | Hk]; [| done].
        destruct (Hframe key Hout) as [-> ->].
        rewrite Hkv1, !lookup_delete_eq. done.
      * intros Hall. apply Hok. rewrite Hsched1. by apply next_step_healthy.
    + intros [= <- <-]. unfold mbind, M_bind in Hbody.
      destruct (Database.delete key w) as [[[] | err'] w1] eqn:Hdel; [done |].
      injection Hbody as <- <-.
      apply db_delete_inv in Hdel as (Hmem1 & _ & _ & _ & Hkv1 & Hfail).
      specialize (Hkv1 err' eq_refl).
      split; [| split].
      * intros k _. by rewrite Hkv1, Hmem1.
      * discriminate.
      * intros Hall. apply next_step_healthy in Hall as [Hhead _].
        specialize (Hfail Hhead). discriminate.
Qed.

(** What [invalidatePattern] does, in terms of the keys its list call
    returns. *)
Lemma invalidatePattern_inv pattern w :
  let listed k :=
    glob_match (CACHE_PREFIX +:+ pattern) k = true
    ∧ is_Some (visible (clock w + Z.of_N (latency (next_step w).1)) (kv w) k) in
  let w' := (invalidatePattern pattern w).2 in
  (∀ k, ¬ listed k →
        kv w' !! k = kv w !! k ∧ memoryCache w' !! k = memoryCache w !! k)
  ∧ (Forall (λ s, fails s = false) (schedule w) →
     ∀ k, listed k → kv w' !! k = None ∧ memoryCache w' !! k = None).
Proof.
  intros listed w'. subst listed w'.
  destruct (invalidatePattern pattern w) as [r' w'] eqn:Hrun. cbn [snd].
  unfold invalidatePattern in Hrun.
  set (body := λ key : string, Database.delete key;; memory_delete key) in Hrun.
  unfold try_catch in Hrun. unfold mbind at 1, M_bind at 1 in Hrun.
  destruct (Database.list (CACHE_PREFIX +:+ pattern) w) as [[keys | err] wa] eqn:Hlist.
  - pose proof Hlist as Hcall. unfold Database.list, kv_keys in Hcall.
    apply kv_call_inv in Hcall as (Hmema & _ & _ & Hscheda & Hok & _).
    destruct (Hok keys eq_refl) as [Hkva Hkeys]. cbn [fst snd] in Hkva, Hkeys.
    assert (clock wa = clock w + Z.of_N (latency (next_step w).1)) as Hclock.
    { unfold Database.list, kv_keys, kv_call in Hlist.
      destruct (next_step w) as [step rest]. destruct (fails step); [done |].
      injection Hlist as _ <-. done. }
    rewrite Hclock in Hkeys.
    assert (∀ k, k ∈ keys ↔
                 glob_match (CACHE_PREFIX +:+ pattern) k = true
                 ∧ is_Some (visible (clock w + Z.of_N (latency (next_step w).1))
                              (kv w) k)) as Hlisted.
    { intros k. rewrite Hkeys, list_elem_of_filter, elem_of_elements, elem_of_dom.
      split; [by intros [? _] |]. intros [Hglob Hvis]. split; [done |].
      unfold visible in Hvis. destruct (kv w !! k); [done | by destruct Hvis]. }
    destruct (for_of keys body wa) as [r wb] eqn:Hloop.
    apply for_of_delete_both_inv in Hloop as (Hframe & Hgone & Hhealthy).
    assert (kv w' = kv wb ∧ memoryCache w' = memoryCache wb) as [-> ->].
    { destruct r; injection Hrun as _ <-; done. }
    split.
    + intros k Hnot. rewrite <- Hlisted in Hnot.
      destruct (Hframe k Hnot) as [-> ->]. by rewrite Hkva, Hmema.
    + intros Hall k Hk. rewrite <- Hlisted in Hk.
      apply Hgone; [| done]. apply Hhealthy.
      rewrite Hscheda. by apply next_step_healthy.
  - cbn in Hrun. injection Hrun as _ <-. cbn.
    pose proof Hlist as Hcall. unfold Database.list, kv_keys in Hcall.
    apply kv_call_inv in Hcall as (Hmema & _ & _ & _ & _ & Hfail).
    specialize (Hfail err eq_refl). split.
    + intros k _. by rewrite Hfail, Hmema.
    + intros Hall. exfalso. apply next_step_healthy in Hall as [Hhead _].
      unfold Database.list, kv_keys, kv_call in Hlist.
      destruct (next_step w) as [step rest]. cbn in Hhead.
      rewrite Hhead in Hlist. discriminate.
Qed.

(** X26.  [invalidatePattern] touches only the keys that match the
    prefixed pattern and that the durable store still serves: every
    other entry stays as it was in both tiers.  In particular an entry of
    the local tier whose durable copy has expired or was deleted survives
    [invalidatePattern], even though its key matches. *)
Theorem invalidatePattern_touches_only_listed_keys pattern w (k : string) :
  glob_match (CACHE_PREFIX +:+ pattern) k = false
  ∨ visible (clock w + Z.of_N (latency (next_step w).1)) (kv w) k = None →
  memoryCache (invalidatePattern pattern w).2 !! k = memoryCache w !! k
  ∧ kv (invalidatePattern pattern w).2 !! k = kv w !! k.
Proof.
  intros Hnot.
  destruct (proj1 (invalidatePattern_inv pattern w) k) as [Hkv Hmem]; [| done].
  intros [Hglob Hvis]. destruct Hnot as [Hnot | Hnot].
  - congruence.
  - rewrite Hnot in Hvis. by destruct Hvis.
Qed.

Lemma invalidatePattern_touches_only_listed_keys_witness :
  let w := elapse 5000 (get "k" None 60
                          (elapse 59000 (set "k" (Js.Str "v") 60 Examples.idle).2)).2 in
  memoryCache (invalidatePattern "*" w).2 !! "cache:k" = memoryCache w !! "cache:k"
  ∧ kv (invalidatePattern "*" w).2 !! "cache:k" = kv w !! "cache:k".
Proof.
  intros w.
  apply (invalidatePattern_touches_only_listed_keys "*" w "cache:k").
  right. vm_compute. reflexivity.
Defined.

(** X27.  When no call of the durable store fails, [invalidatePattern]
    removes from both tiers every key that matches the prefixed pattern
    and that the durable store serves. *)
Theorem invalidatePattern_removes_live_matches pattern w (k : string) :
  Forall (λ s, fails s = false) (schedule w) →
  glob_match (CACHE_PREFIX +:+ pattern) k = true →
  is_Some (visible (clock w + Z.of_N (latency (next_step w).1)) (kv w) k) →
  memoryCache (invalidatePattern pattern w).2 !! k = None
  ∧ kv (invalidatePattern pattern w).2 !! k = None.
Proof.
  intros Hall Hglob Hvis.
  destruct (proj2 (invalidatePattern_inv pattern w) Hall k) as [Hkv Hmem]; done.
Qed.

Lemma invalidatePattern_removes_live_matches_witness :
  let w := (set "user:2" (Js.Num 2) 60
              (set "user:1" (Js.Num 1) 60
                 (set "order:1" (Js.Num 3) 60 Examples.idle).2).2).2 in
  memoryCache (invalidatePattern "user:*" w).2 !! "cache:user:1" = None
  ∧ kv (invalidatePattern "user:*" w).2 !! "cache:user:1" = None.
Proof.
  intros w.
  apply (invalidatePattern_removes_live_matches "user:*" w "cache:user:1").
  - vm_compute. constructor.
  - reflexivity.
  - vm_compute. by eexists.
Defined.

End EdgeCacheOperations.

(* ===================================================================== *)
(** * The cache management endpoint                                       *)
(* ===================================================================== *)

Section CacheRouteFacts.
Import Runtime Utils CacheRoute.

(** X28.  An admitted [POST] that asks for [invalidate] without a key, or
    for [invalidatePattern] without a pattern (missing or empty), is
    answered with status 400 and a failure body before the cache is
    called: the cache and the store behind it are left exactly as they
    were. *)
Theorem POST_requires_key_or_pattern
    (headers : gmap string string) (fields : PostBody) (s : Server) :
  (RateLimiter.isAllowed ("cache-post:" +:+ getClientIP headers)
     (clock (world s)) (globalRateLimiter s)).1 = true →
  (action fields = Some "invalidate" ∧ truthy_string (key fields) = false)
  ∨ (action fields = Some "invalidatePattern"
     ∧ truthy_string (pattern fields) = false) →
  status (POST headers (Some fields) s).1 = 400
  ∧ APIResponse.success (body (POST headers (Some fields) s).1) = false
  ∧ APIResponse.data (body (POST headers (Some fields) s).1) = None
  ∧ world (POST headers (Some fields) s).2 = world s.
Proof.
  intros Hadmitted Hmissing. unfold POST.
  destruct (RateLimiter.isAllowed _ _ _) as [allowed limiter].
  cbn in Hadmitted. subst allowed. cbn [negb].
  destruct Hmissing as [[Haction Hkey] | [Haction Hpattern]].
  - rewrite bool_decide_eq_true_2 by done. rewrite Hkey. cbn. done.
  - rewrite bool_decide_eq_false_2 by (rewrite Haction; discriminate).
    rewrite bool_decide_eq_true_2 by done. rewrite Hpattern. cbn. done.
Qed.

Lemma POST_requires_key_or_pattern_witness :
  let request :=
    {| action := Some "invalidatePattern"; key := None; pattern := Some "";
       keys := None |} in
  let s := {| globalRateLimiter := RateLimiter.new 1000 60000;
              world := Examples.stale_local (Js.Str "v") |} in
  status (POST ∅ (Some request) s).1 = 400
  ∧ APIResponse.success (body (POST ∅ (Some request) s).1) = false
  ∧ APIResponse.data (body (POST ∅ (Some request) s).1) = None
  ∧ world (POST ∅ (Some request) s).2 = world s.
Proof.
  intros request s.
  apply (POST_requires_key_or_pattern ∅ request s).
  - vm_compute. reflexivity.
  - right. split; reflexivity.
Defined.

Lemma warm_each_all_warmed (keys : list string) (w : World) :
  (warm_each keys w).1 = map (λ key, (key, warmed)) keys.
Proof.
  revert w. induction keys as [| key keys IH]; intros w; [done |].
  cbn [warm_each map].
  destruct (get_never_throws ("data:" +:+ key) (Some (warm_fetcher key))
              EdgeCache.DEFAULT_TTL w) as [v Hv].
  destruct (EdgeCache.get _ _ _ w) as [outcome w1]. cbn in Hv. subst outcome.
  specialize (IH w1). destruct (warm_each keys w1) as [results w2].
  cbn in IH. subst results. reflexivity.
Qed.

(** X29.  [handleCacheWarmup] never reports a failure: for a non-empty
    list of keys it answers 200 with every key marked as warmed and a
    summary of as many successes as keys and no failure, in every world:
    also when every call of the durable store fails. *)
Theorem warmup_reports_every_key_warmed (keys : list string) (w : World) :
  keys ≠ [] →
  status (handleCacheWarmup (Some keys) w).1 = 200
  ∧ APIResponse.data (body (handleCacheWarmup (Some keys) w).1)
    = Some (WarmedUp {| warmup := map (λ key, (key, warmed)) keys;
                        total := Z.of_nat (length keys);
                        successful := Z.of_nat (length keys);
                        failures := 0 |}).
Proof.
  intros Hkeys. unfold handleCacheWarmup. cbv zeta.
  change (default [] (Some keys)) with keys.
  rewrite bool_decide_eq_false_2 by done.
  pose proof (warm_each_all_warmed keys w) as Hall.
  destruct (warm_each keys w) as [results w1]. cbn in Hall. subst results.
  assert (filter (λ r : string * WarmStatus, is_warmed r = true)
            (map (λ key : string, (key, warmed)) keys)
          = map (λ key : string, (key, warmed)) keys) as ->.
  { clear. induction keys as [| key keys IH]; [done |].
    cbn [map]. rewrite filter_cons, decide_True by done. by rewrite IH. }
  assert (filter (λ r : string * WarmStatus, is_warmed r = false)
            (map (λ key : string, (key, warmed)) keys) = []) as ->.
  { clear. induction keys as [| key keys IH]; [done |].
    cbn [map]. by rewrite filter_cons, decide_False by done. }
  rewrite length_map. cbn. done.
Qed.

Lemma warmup_reports_every_key_warmed_witness :
  let down :=
    {| memoryCache := ∅; kv := ∅; clock := 1700000000000;
       schedule := [ {| latency := 3; fails := true |};
                     {| latency := 3; fails := true |};
                     {| latency := 3; fails := true |};
                     {| latency := 3; fails := true |} ];
       trace := [] |} in
  status (handleCacheWarmup (Some ["a"; "b"]) down).1 = 200.
Proof.
  intros down.
  apply (warmup_reports_every_key_warmed ["a"; "b"] down).
  discriminate.
Defined.

(** X30.  [handleCacheClear] answers 200 with [cleared: true] in every
    world; when the list call of the durable store fails, it does so
    although both tiers are left holding what they held. *)
Theorem handleCacheClear_always_reports_success (w : World) :
  (∃ response,
     (handleCacheClear w).1 = Responded response
     ∧ status response = 200
     ∧ APIResponse.success (body response) = true
     ∧ APIResponse.data (body response) = Some {| cleared := true |})
  ∧ (∀ step rest,
       schedule w = step :: rest → fails step = true →
       memoryCache (handleCacheClear w).2 = memoryCache w
       ∧ kv (handleCacheClear w).2 = kv w).
Proof.
  unfold handleCacheClear. split.
  - pose proof (clear_never_throws w) as Hclear.
    destruct (EdgeCache.clear w) as [[[] | err] w1]; [| done].
    eexists. split; [reflexivity |]. done.
  - intros step rest Hsched Hfails.
    unfold EdgeCache.clear, EdgeCache.clear_try, try_catch, mbind, M_bind,
      Database.list, kv_keys, kv_call, next_step.
    rewrite Hsched, Hfails. cbn. done.
Qed.

Lemma handleCacheClear_always_reports_success_witness :
  let w := Examples.failing_next (Examples.stale_local (Js.Str "v")) in
  memoryCache (handleCacheClear w).2 = memoryCache w
  ∧ kv (handleCacheClear w).2 = kv w.
Proof.
  intros w.
  apply (proj2 (handleCacheClear_always_reports_success w)
           {| latency := 3; fails := true |} []); reflexivity.
Defined.

End CacheRouteFacts.
